(** * process-compose: the project supervisor of [src/app/project.go]

    A shallow embedding of the dependency walker ([getProcesses],
    [withProcesses], [WithProcesses], [GetDependenciesOrderNames]), of the
    supervisor entry points ([Run], [runProcess], [waitIfNeeded],
    [StartProcess], [StopProcess]) and of the compose-file discovery
    ([findFiles], [AutoDiscoverComposeFile]), with the properties the
    specification states about them. *)

From stdpp Require Import gmap strings list fin_maps sorting.
From Stdlib Require Import ZArith.

(* stdpp's solvers clear hypotheses that may be gone already. *)
Set Warnings "-clear-no-such-hyp".

Open Scope string_scope.
Open Scope list_scope.
Open Scope nat_scope.

(** ** Data model *)

(** A Go [map[string]V] that the program iterates with [range].  Go leaves the
    order of [range] over a map unspecified (the runtime randomises it), so the
    embedding represents a map by the list of its entries in the order in
    which the run's [range] yields them; the keys of a map are distinct
    ([map_wf]).  Two lists represent the same Go map when one is a
    permutation of the other. *)
Abbreviation GoMap V := (list (string * V)) (only parsing).

Definition map_keys {V} (m : GoMap V) : list string := m.*1.

Definition map_wf {V} (m : GoMap V) : Prop := NoDup (map_keys m).

(** [v, ok := m[k]] *)
Fixpoint map_get {V} (m : GoMap V) (k : string) : option V :=
  match m with
  | [] => None
  | (k', v) :: m' => if decide (k' = k) then Some v else map_get m' k
  end.

(** Modelled from the spec: the dependency condition is declared outside
    [project.go]; section 3 gives it as a tagged variant with two cases. *)
Inductive ProcessCondition : Type :=
| ProcessConditionCompleted
| ProcessConditionCompletedSuccessfully.

Record ProcessDependency : Type := { Condition : ProcessCondition }.

(** Modelled from the spec: the struct [ProcessConfig] is declared outside
    [project.go]; these are the fields of section 3 that [project.go] reads
    or writes. *)
Record ProcessConfig : Type := {
  Name : string;
  Disabled : bool;
  LogLocation : string;
  DependsOn : GoMap ProcessDependency
}.

(** [proc.Name = name] *)
Definition set_Name (name : string) (proc : ProcessConfig) : ProcessConfig :=
  {| Name := name;
     Disabled := Disabled proc;
     LogLocation := LogLocation proc;
     DependsOn := DependsOn proc |}.

(** Modelled from the spec: the method [GetDependencies] is declared outside
    [project.go]; the walker of section 4.4 follows the [DependsOn] relation,
    so it is the list of the names [DependsOn] maps, as a [range] over that
    map yields them. *)
Definition GetDependencies (proc : ProcessConfig) : list string :=
  map_keys (DependsOn proc).

(** The errors [project.go] builds with [fmt.Errorf], one constructor per
    format string. *)
Inductive error : Type :=
| NoSuchProcess (name : string)
    (* "no such process: %s" *)
| AlreadyRunning (name : string)
    (* "process %s is already running" *)
| NotRunning (name : string)
    (* "process %s is not running" *)
| UnmetDependency (process dep : string) (exitCode : Z)
    (* "process %s depended on %s to complete successfully, but it exited
       with status %d" *)
| NoConfigFiles (pwd : string).
    (* "no config files found in %s" *)

Global Instance error_eq_dec : EqDecision error.
Proof. solve_decision. Defined.

(** Modelled from the spec: the status of a process (section 3);
    [project.go] names [ProcessStatePending] and [ProcessStateDisabled]. *)
Inductive ProcessStatus : Type :=
| ProcessStatePending
| ProcessStateDisabled
| ProcessStateRunning
| ProcessStateCompleted
| ProcessStateError
| ProcessStateSkipped.

(** The record [ProcessState], with the four fields [initProcessStates]
    fills. *)
Module ProcessState.
Record t : Type := {
  Name : string;
  Status : ProcessStatus;
  Restarts : Z;
  ExitCode : Z
}.
End ProcessState.

(** Modelled from the spec: the loggers of package [pclog], by the
    constructor that made them ([NewNilLogger], [NewLogger]). *)
Inductive PcLogger : Type :=
| NewNilLogger
| NewLogger (location : string).

(** Modelled from the spec: the handle [Process] is declared outside
    [project.go]; section 4.2 gives its construction inputs, which is all
    [project.go] knows of it: ambient environment, logger, configuration,
    state record and attempt counter.  The state record is held by
    pointer; no property below reads through it. *)
Record Process : Type := NewProcess {
  globalEnv : list string;
  procLogger : PcLogger;
  procConf : ProcessConfig;
  procState : option ProcessState.t;
  attempt : Z
}.

(** Modelled from the spec: [GetName], the name of the handle's process. *)
Definition GetName (process : Process) : string := Name (procConf process).

(** The fields of [Project] that [project.go] uses.  [wg] is the counter of
    the [sync.WaitGroup]; [mapMutex] guards [runningProcesses], whose
    accesses are the atomic steps of the embedding. *)
Record Project : Type := {
  Processes : GoMap ProcessConfig;
  Environment : list string;
  ProjectLogLocation : string;
  logger : PcLogger;
  processStates : gmap string ProcessState.t;
  runningProcesses : gmap string Process;
  wg : Z
}.

(** A project as the loader leaves it: the declared processes, nothing
    running. *)
Definition loaded (processes : GoMap ProcessConfig) : Project :=
  {| Processes := processes;
     Environment := [];
     ProjectLogLocation := "";
     logger := NewNilLogger;
     processStates := ∅;
     runningProcesses := ∅;
     wg := 0 |}.

(** ** The dependency walker *)

Section Walker.

(** The receiver [p *Project]; the walker reads its declared processes. *)
Variable p : Project.

(** The first loop of [getProcesses]: [range] over all declared
    processes, disabled ones skipped. *)
Fixpoint getProcesses_all (entries : GoMap ProcessConfig)
    (processes : list ProcessConfig) : list ProcessConfig :=
  match entries with
  | [] => processes
  | (name, proc) :: entries' =>
      if Disabled proc then getProcesses_all entries' processes
      else getProcesses_all entries' (processes ++ [set_Name name proc])
  end.

(** The second loop of [getProcesses]: the given names in order, disabled
    ones skipped, an undeclared one ends the loop with an error and with
    the processes found so far. *)
Fixpoint getProcesses_named (names : list string)
    (processes : list ProcessConfig) : list ProcessConfig * option error :=
  match names with
  | [] => (processes, None)
  | name :: names' =>
      match map_get (Processes p) name with
      | Some proc =>
          if Disabled proc then getProcesses_named names' processes
          else getProcesses_named names' (processes ++ [set_Name name proc])
      | None => (processes, Some (NoSuchProcess name))
      end
  end.

Definition getProcesses (names : list string)
    : list ProcessConfig * option error :=
  if decide (length names = 0) then (getProcesses_all (Processes p) [], None)
  else getProcesses_named names [].

(** [done map[string]bool]: a missing key reads as [false]. *)
Definition is_done (done : gmap string bool) (name : string) : bool :=
  default false (done !! name).

(** The visitor [ProcessFunc].  A Go closure updates the variables it
    captured; here it passes them along as a state of type [St]. *)
Definition ProcessFunc (St : Type) : Type :=
  ProcessConfig -> St -> St * option error.

(** What a call of [withProcesses] leaves: the error it returns, the
    [done] map (shared by reference between all the calls of one walk) and
    the visitor's state. *)
Definition Walk (St : Type) : Type := option error * gmap string bool * St.

Section Loop.
Context {St : Type}.
Variable fn : ProcessFunc St.
(** The recursive call [p.withProcesses(dependencies, fn, done)];
    [None] when the recursion did not come back. *)
Variable rec : list string -> gmap string bool -> St -> option (Walk St).

(** The [for _, process := range processes] loop of [withProcesses]. *)
Fixpoint withProcesses_loop (processes : list ProcessConfig)
    (done : gmap string bool) (st : St) : option (Walk St) :=
  match processes with
  | [] => Some (None, done, st)
  | process :: processes' =>
      if is_done done (Name process) then
        withProcesses_loop processes' done st
      else
        let done := <[Name process := true]> done in
        let dependencies := GetDependencies process in
        let walked :=
          if decide (0 < length dependencies) then rec dependencies done st
          else Some (None, done, st) in
        match walked with
        | None => None
        | Some (Some err, done, st) => Some (Some err, done, st)
        | Some (None, done, st) =>
            match fn process st with
            | (st, Some err) => Some (Some err, done, st)
            | (st, None) => withProcesses_loop processes' done st
            end
        end
  end.
End Loop.

(** [withProcesses].  Go recurses without a bound; the embedding counts
    the depth of the recursion down from [fuel] and answers [None] when
    the depth is used up.  [withProcesses_enough] below shows that a
    depth of one more than the number of declared processes is never
    used up. *)
Fixpoint withProcesses {St} (fuel : nat) (names : list string)
    (fn : ProcessFunc St) (done : gmap string bool) (st : St)
    : option (Walk St) :=
  match fuel with
  | 0 => None
  | S fuel' =>
      match getProcesses names with
      | (_, Some err) => Some (Some err, done, st)
      | (processes, None) =>
          withProcesses_loop fn (fun names' => withProcesses fuel' names' fn)
            processes done st
      end
  end.

(** [WithProcesses]: the walk starts with an empty [done] map. *)
Definition WithProcesses {St} (names : list string) (fn : ProcessFunc St)
    (st : St) : option (Walk St) :=
  withProcesses (S (length (Processes p))) names fn ∅ st.

(** The visitor of [GetDependenciesOrderNames]:
    [order = append(order, process.Name)]. *)
Definition append_name : ProcessFunc (list string) :=
  fun process order => (order ++ [Name process], None).

(** The visitor of [Run]: [runOrder = append(runOrder, process)]. *)
Definition append_process : ProcessFunc (list ProcessConfig) :=
  fun process runOrder => (runOrder ++ [process], None).

(** [GetDependenciesOrderNames]: the order and the error of the walk. *)
Definition GetDependenciesOrderNames : option (list string * option error) :=
  match WithProcesses [] append_name [] with
  | Some (err, _, order) => Some (order, err)
  | None => None
  end.

End Walker.

(** ** The supervisor *)

(** What a supervisor step does to the process handles and to the scheduler,
    in the order it does it. *)
Inductive Event : Type :=
| EvGo (process : Process)
    (* [go func() {...}()] in [runProcess]: a task is spawned for the handle *)
| EvWaitForCompletion (dep : string) (runningProc : Process)
    (waiter : string) (exitCode : Z)
    (* [runningProc], found live under the name [dep], was asked
       [WaitForCompletion(waiter)] and answered [exitCode] *)
| EvRun (process : Process)
    (* [process.Run()] *)
| EvWontRun (process : Process)
    (* [process.WontRun()] *)
| EvStop (process : Process).
    (* [proc.stop()] *)

(** Supervisor code runs on the project [p] it receives by pointer, and
    calls out to the handles: a step takes the project, and gives its
    result, the project as it leaves it and the events it caused. *)
Definition M (A : Type) : Type := Project -> A * Project * list Event.

Global Instance M_ret : MRet M := fun A a p => (a, p, []).

Global Instance M_bind : MBind M := fun A B f m p =>
  let '(a, p1, evs1) := m p in
  let '(b, p2, evs2) := f a p1 in
  (b, p2, evs1 ++ evs2).

Definition get_project : M Project := fun p => (p, p, []).

Definition emit (ev : Event) : M unit := fun p => (tt, p, [ev]).

Definition set_runningProcesses (f : gmap string Process -> gmap string Process)
    : M unit := fun p =>
  (tt,
   {| Processes := Processes p;
      Environment := Environment p;
      ProjectLogLocation := ProjectLogLocation p;
      logger := logger p;
      processStates := processStates p;
      runningProcesses := f (runningProcesses p);
      wg := wg p |},
   []).

Definition set_processStates (states : gmap string ProcessState.t) : M unit :=
  fun p =>
  (tt,
   {| Processes := Processes p;
      Environment := Environment p;
      ProjectLogLocation := ProjectLogLocation p;
      logger := logger p;
      processStates := states;
      runningProcesses := runningProcesses p;
      wg := wg p |},
   []).

Definition set_logger (l : PcLogger) : M unit := fun p =>
  (tt,
   {| Processes := Processes p;
      Environment := Environment p;
      ProjectLogLocation := ProjectLogLocation p;
      logger := l;
      processStates := processStates p;
      runningProcesses := runningProcesses p;
      wg := wg p |},
   []).

(** [p.wg.Add(delta)]; [p.wg.Done()] is [wg_Add (-1)]. *)
Definition wg_Add (delta : Z) : M unit := fun p =>
  (tt,
   {| Processes := Processes p;
      Environment := Environment p;
      ProjectLogLocation := ProjectLogLocation p;
      logger := logger p;
      processStates := processStates p;
      runningProcesses := runningProcesses p;
      wg := (wg p + delta)%Z |},
   []).

Definition wg_Done : M unit := wg_Add (-1).

(** [initProcessStates]: one record per declared process. *)
Definition initProcessStates : M unit :=
  p ← get_project;
  set_processStates
    (foldl (fun states '(key, proc) =>
              <[key := {| ProcessState.Name := key;
                          ProcessState.Status :=
                            if Disabled proc then ProcessStateDisabled
                            else ProcessStatePending;
                          ProcessState.Restarts := 0;
                          ProcessState.ExitCode := 0 |}]> states)
           ∅ (Processes p)).

Definition GetProcessState (p : Project) (name : string)
    : option ProcessState.t :=
  processStates p !! name.

Definition addRunningProcess (process : Process) : M unit :=
  set_runningProcesses (fun running => <[GetName process := process]> running).

Definition getRunningProcess (name : string) : M (option Process) :=
  p ← get_project; mret (runningProcesses p !! name).

Definition removeRunningProcess (name : string) : M unit :=
  set_runningProcesses (fun running => delete name running).

Section Supervisor.

(** Code of the repository that [project.go] calls and that lies outside
    it: the string test of [runProcess], and the methods of the handle.
    [WaitForCompletion] blocks the task until the other process is over,
    and [Run] until the child has exited; other tasks and the control API
    run meanwhile, so each of them hands back a project that may differ
    in any way.  They are taken as returning: a wait that never ends
    leaves the task at that call. *)
Variable isStringDefined : string -> bool.
Variable Process_WaitForCompletion : Process -> string -> Project -> Z * Project.
Variable Process_Run : Process -> Project -> Project.
Variable Process_WontRun : Process -> Project -> Project.
Variable Process_stop : Process -> Project -> Project.

Definition WaitForCompletion (dep : string) (runningProc : Process)
    (waiter : string) : M Z := fun p =>
  let '(exitCode, p') := Process_WaitForCompletion runningProc waiter p in
  (exitCode, p', [EvWaitForCompletion dep runningProc waiter exitCode]).

(** [process.Run()]; [Run] below is the method of the project. *)
Definition Run_handle (process : Process) : M unit := fun p =>
  (tt, Process_Run process p, [EvRun process]).

Definition WontRun (process : Process) : M unit := fun p =>
  (tt, Process_WontRun process p, [EvWontRun process]).

Definition stop (process : Process) : M unit := fun p =>
  (tt, Process_stop process p, [EvStop process]).

(** The loop of [waitIfNeeded] over the entries of [process.DependsOn];
    [process.DependsOn[k]] is the entry [dep] the [range] is at. *)
Fixpoint waitIfNeeded_loop (process : ProcessConfig)
    (deps : GoMap ProcessDependency) : M (option error) :=
  match deps with
  | [] => mret None
  | (k, dep) :: deps' =>
      runningProc ← getRunningProcess k;
      match runningProc with
      | Some runningProc =>
          match Condition dep with
          | ProcessConditionCompleted =>
              _ ← WaitForCompletion k runningProc (Name process);
              waitIfNeeded_loop process deps'
          | ProcessConditionCompletedSuccessfully =>
              exitCode ← WaitForCompletion k runningProc (Name process);
              if decide (exitCode ≠ 0%Z) then
                mret (Some (UnmetDependency (Name process) k exitCode))
              else waitIfNeeded_loop process deps'
          end
      | None => waitIfNeeded_loop process deps'
      end
  end.

Definition waitIfNeeded (process : ProcessConfig) : M (option error) :=
  waitIfNeeded_loop process (DependsOn process).

(** The body of the task that [runProcess] spawns; the two deferred
    calls run last, in the reverse of the order they were deferred in. *)
Definition task (process : Process) : M unit :=
  err ← waitIfNeeded (procConf process);
  _ ← match err with
      | Some _ => WontRun process
      | None => Run_handle process
      end;
  _ ← wg_Done;
  removeRunningProcess (GetName process).

Definition runProcess (proc : ProcessConfig) : M unit :=
  p ← get_project;
  let procLogger :=
    if isStringDefined (LogLocation proc) then NewLogger (LogLocation proc)
    else logger p in
  let process :=
    NewProcess (Environment p) procLogger proc
      (GetProcessState p (Name proc)) 1 in
  _ ← addRunningProcess process;
  _ ← wg_Add 1;
  emit (EvGo process).

Definition StartProcess (name : string) : M (option error) :=
  proc ← getRunningProcess name;
  match proc with
  | Some _ => mret (Some (AlreadyRunning name))
  | None =>
      p ← get_project;
      match map_get (Processes p) name with
      | Some proc =>
          _ ← runProcess (set_Name name proc);
          mret None
      | None => mret (Some (NoSuchProcess name))
      end
  end.

Definition StopProcess (name : string) : M (option error) :=
  proc ← getRunningProcess name;
  match proc with
  | None => mret (Some (NotRunning name))
  | Some proc =>
      _ ← stop proc;
      mret None
  end.

(** [for _, proc := range runOrder { p.runProcess(proc) }] *)
Fixpoint runProcess_each (runOrder : list ProcessConfig) : M unit :=
  match runOrder with
  | [] => mret tt
  | proc :: runOrder' => _ ← runProcess proc; runProcess_each runOrder'
  end.

(** [Run], up to its last statement [p.wg.Wait()], which blocks until the
    counter [wg] is back at zero.  The error of the walk is dropped, as
    the call statement in [Run] drops it.  [None] when the walk did not
    come back. *)
Definition Run (p : Project) : option (Project * list Event) :=
  let '(_, p, evs_init) :=
    (_ ← initProcessStates; set_runningProcesses (fun _ => ∅)) p in
  match WithProcesses p [] append_process [] with
  | None => None
  | Some (_, _, runOrder) =>
      let '(_, p, evs) :=
        (_ ← set_logger
               (if isStringDefined (ProjectLogLocation p)
                then NewLogger (ProjectLogLocation p) else NewNilLogger);
         runProcess_each runOrder) p in
      Some (p, evs_init ++ evs)
  end.

End Supervisor.

(** ** Compose-file discovery *)

(** A line of the global logger: level and message. *)
Inductive LogLine : Type :=
| Warn (msg : string).

Section Discovery.

(** The file system and [path/filepath]: [Stat f] tells whether
    [os.Stat(f)] gave no error. *)
Variable Join : string -> string -> string.
Variable Stat : string -> bool.

Fixpoint findFiles_loop (names : list string) (pwd : string)
    (candidates : list string) : list string :=
  match names with
  | [] => candidates
  | n :: names' =>
      let f := Join pwd n in
      if Stat f then findFiles_loop names' pwd (candidates ++ [f])
      else findFiles_loop names' pwd candidates
  end.

Definition findFiles (names : list string) (pwd : string) : list string :=
  findFiles_loop names pwd [].

(** [strings.Join(elems, sep)] *)
Fixpoint strings_Join (elems : list string) (sep : string) : string :=
  match elems with
  | [] => ""
  | [e] => e
  | e :: elems' => e +:+ sep +:+ strings_Join elems' sep
  end.

Definition DefaultFileNames : list string :=
  ["compose.yml"; "compose.yaml"; "process-compose.yml"; "process-compose.yaml"].

(** The file name, the error, and the lines logged. *)
Definition AutoDiscoverComposeFile (pwd : string)
    : string * option error * list LogLine :=
  let candidates := findFiles DefaultFileNames pwd in
  match candidates with
  | winner :: others =>
      (winner, None,
       if decide (1 < length candidates) then
         [Warn ("Found multiple config files with supported names: "
                +:+ strings_Join candidates ", ");
          Warn ("Using " +:+ winner)]
       else [])
  | [] => ("", Some (NoConfigFiles pwd), [])
  end.

End Discovery.

(** ** What a walk visits *)

Section WalkSpec.

Variable p : Project.

(** The configuration the walker handles under a name: the declared one,
    with its [Name] set; none for an undeclared or a disabled process. *)
Definition config_of (name : string) : option ProcessConfig :=
  proc ← map_get (Processes p) name;
  if Disabled proc then None else Some (set_Name name proc).

Definition declared (name : string) : Prop :=
  is_Some (map_get (Processes p) name).

Definition enabled (name : string) : Prop := is_Some (config_of name).

(** The dependencies the walker follows from a name. *)
Definition deps_of (name : string) : list string :=
  from_option GetDependencies [] (config_of name).

(** An edge of the graph the walker moves in: from a process that is not
    disabled to a dependency of it that is not disabled. *)
Definition edge (x y : string) : Prop := y ∈ deps_of x ∧ enabled y.

(** The names a walk starts from: the given ones, all the declared ones
    when none is given. *)
Definition start_names (names : list string) : list string :=
  if decide (length names = 0) then map_keys (Processes p) else names.

(** [x] can be reached from one of [roots] through processes that are not
    disabled. *)
Definition from (roots : list string) (x : string) : Prop :=
  ∃ r, r ∈ roots ∧ enabled r ∧ rtc edge r x.

Definition reachable (names : list string) (x : string) : Prop :=
  from (start_names names) x.

(** No process that is not disabled depends on itself through one or more
    edges. *)
Definition acyclic : Prop := ∀ x, ¬ tc edge x x.

(** The runs of [withProcesses] with the visitor of [Run], as a relation:
    [walks names done err done' new] when the call on [names] with the map
    [done] returns [err], leaves the map [done'] and has appended [new] to
    the run order. *)
Inductive walks : list string -> gmap string bool -> option error ->
    gmap string bool -> list ProcessConfig -> Prop :=
| walks_err names done processes err :
    getProcesses p names = (processes, Some err) ->
    walks names done (Some err) done []
| walks_ok names done processes err done' new :
    getProcesses p names = (processes, None) ->
    loops processes done err done' new ->
    walks names done err done' new
with loops : list ProcessConfig -> gmap string bool -> option error ->
    gmap string bool -> list ProcessConfig -> Prop :=
| loops_nil done :
    loops [] done None done []
| loops_skip process processes done err done' new :
    is_done done (Name process) = true ->
    loops processes done err done' new ->
    loops (process :: processes) done err done' new
| loops_leaf process processes done err done' new :
    is_done done (Name process) = false ->
    GetDependencies process = [] ->
    loops processes (<[Name process := true]> done) err done' new ->
    loops (process :: processes) done err done' (process :: new)
| loops_abort process processes done err done' new :
    is_done done (Name process) = false ->
    GetDependencies process ≠ [] ->
    walks (GetDependencies process) (<[Name process := true]> done)
      (Some err) done' new ->
    loops (process :: processes) done (Some err) done' new
| loops_node process processes done done1 new1 err done' new :
    is_done done (Name process) = false ->
    GetDependencies process ≠ [] ->
    walks (GetDependencies process) (<[Name process := true]> done)
      None done1 new1 ->
    loops processes done1 err done' new ->
    loops (process :: processes) done err done' (new1 ++ process :: new).

Scheme walks_loops_ind := Minimality for walks Sort Prop
  with loops_walks_ind := Minimality for loops Sort Prop.
Combined Scheme walks_mutind from walks_loops_ind, loops_walks_ind.

End WalkSpec.

(** ** The vocabulary of the invariants *)

Section WalkVocabulary.

Variable p : Project.

(** The map [done] only grows, and what a call appends to the run order
    are processes it marked itself, each once. *)
Definition grows (done done' : gmap string bool)
    (new : list ProcessConfig) : Prop :=
  (∀ x, is_done done x = true -> is_done done' x = true)
  ∧ (∀ c, c ∈ new -> is_done done (Name c) = false
                     ∧ is_done done' (Name c) = true)
  ∧ NoDup (Name <$> new).

(** The processes the loop of [withProcesses] runs over are
    configurations of the project under their own names. *)
Definition good (c : ProcessConfig) : Prop := config_of p (Name c) = Some c.

(** Everything a call marks can be reached from its start names, and what
    it appends has all its dependencies declared and, when not disabled,
    marked. *)
Definition visits (roots : list string) (done done' : gmap string bool)
    (new : list ProcessConfig) : Prop :=
  (∀ c, c ∈ new ->
     good c ∧ ∀ d, d ∈ GetDependencies c ->
                   declared p d ∧ (enabled p d -> is_done done' d = true))
  ∧ (∀ x, is_done done' x = true -> is_done done x = true ∨ from p roots x).

(** [ordered ok new]: every process of [new] comes after all its
    dependencies that are not disabled, counting those in [ok] as already
    there. *)
Fixpoint ordered (ok : string -> Prop) (new : list ProcessConfig) : Prop :=
  match new with
  | [] => True
  | c :: new' =>
      (∀ d, d ∈ GetDependencies c -> enabled p d -> ok d)
      ∧ ordered (fun d => ok d ∨ d = Name c) new'
  end.

(** The declared processes that are not disabled and not marked yet. *)
Definition is_undone (done : gmap string bool)
    (entry : string * ProcessConfig) : Prop :=
  Disabled entry.2 = false ∧ is_done done entry.1 = false.

Global Instance is_undone_dec done entry : Decision (is_undone done entry).
Proof. unfold is_undone. apply _. Defined.

Definition undone (done : gmap string bool) : nat :=
  length (filter (is_undone done) (Processes p)).

Definition listed (c : ProcessConfig) : Prop :=
  ∃ proc, (Name c, proc) ∈ Processes p ∧ Disabled proc = false.

End WalkVocabulary.

Section Alike.

Context {St1 St2 : Type}.
Variable R : St1 -> St2 -> Prop.

Definition alike (r1 : option (Walk St1)) (r2 : option (Walk St2)) : Prop :=
  match r1, r2 with
  | None, None => True
  | Some (err1, done1, st1), Some (err2, done2, st2) =>
      err1 = err2 ∧ done1 = done2 ∧ R st1 st2
  | _, _ => False
  end.

End Alike.

(** ** The vocabulary of the specification *)

(** The [DependsOn] relation of the declared processes, disabled or not. *)
Definition depends_on (p : Project) (x y : string) : Prop :=
  ∃ proc, map_get (Processes p) x = Some proc ∧ y ∈ GetDependencies proc.

(** [x] can be reached from a start name along [DependsOn], through any
    declared process. *)
Definition within_reach (p : Project) (names : list string) (x : string)
    : Prop :=
  ∃ r, r ∈ start_names p names ∧ enabled p r ∧ rtc (depends_on p) r x.

(** Section 4.4 read to the letter: the walk visits every process within
    reach that is not disabled, once, each after all the names in its
    [DependsOn], and no disabled one. *)
Definition visits_all_in_order (p : Project) (names : list string) : Prop :=
  ∃ err done out,
    WithProcesses p names append_process [] = Some (err, done, out)
    ∧ NoDup (Name <$> out)
    ∧ (∀ x, within_reach p names x -> enabled p x -> x ∈ Name <$> out)
    ∧ (∀ l1 c l2 d, out = l1 ++ c :: l2 -> d ∈ GetDependencies c ->
                    d ∈ Name <$> l1)
    ∧ (∀ c, c ∈ out -> Disabled c = false).

(** Two configurations that differ at most in the order in which [range]
    yields the entries of [DependsOn]. *)
Definition same_config (c1 c2 : ProcessConfig) : Prop :=
  Name c1 = Name c2 ∧ Disabled c1 = Disabled c2
  ∧ LogLocation c1 = LogLocation c2 ∧ DependsOn c1 ≡ₚ DependsOn c2.

(** Two runs on the same declared processes: the same configuration under
    every name, the maps ranged over in whatever order. *)
Definition same_project (p1 p2 : Project) : Prop :=
  map_wf (Processes p1) ∧ map_wf (Processes p2)
  ∧ ∀ k, match map_get (Processes p1) k, map_get (Processes p2) k with
         | Some c1, Some c2 => same_config c1 c2
         | None, None => True
         | _, _ => False
         end.

(** The calls of [Run] and [WontRun] among the events of a step. *)
Definition is_launch (ev : Event) : bool :=
  match ev with
  | EvRun _ | EvWontRun _ => true
  | _ => false
  end.

Definition launches (evs : list Event) : list Event :=
  filter (fun ev => is_launch ev = true) evs.

(** Among the events of a task for [process]: a dependency on condition
    [CompletedSuccessfully] was found live and its [WaitForCompletion]
    returned an exit code that is not zero. *)
Definition unmet (process : ProcessConfig) (evs : list Event) : Prop :=
  ∃ dep d runningProc exitCode,
    (dep, d) ∈ DependsOn process
    ∧ Condition d = ProcessConditionCompletedSuccessfully
    ∧ EvWaitForCompletion dep runningProc (Name process) exitCode ∈ evs
    ∧ exitCode ≠ 0%Z.

(** ** Projects, handles and directories for examples *)

(** A process configuration as the loader leaves it, with the given
    dependencies, each on condition [Completed]. *)
Definition process_decl (disabled : bool) (deps : list string)
    : ProcessConfig :=
  {| Name := "";
     Disabled := disabled;
     LogLocation := "";
     DependsOn :=
       (fun d => (d, {| Condition := ProcessConditionCompleted |})) <$> deps |}.

(** [a] depends on [b], which is disabled and depends on [c]. *)
Definition through_disabled : Project :=
  loaded [("a", process_decl false ["b"]);
          ("b", process_decl true ["c"]);
          ("c", process_decl false [])].

(** [web] depends on [api] and on the disabled [cache]; [api] on [db]. *)
Definition web_stack : Project :=
  loaded [("web", process_decl false ["api"; "cache"]);
          ("api", process_decl false ["db"]);
          ("db", process_decl false []);
          ("cache", process_decl true ["db"])].

(** [a] and [b] depend on each other. *)
Definition two_cycle : Project :=
  loaded [("a", process_decl false ["b"]); ("b", process_decl false ["a"])].

(** [web] depends on [api], on the disabled [cache] and on [queue], which
    is not declared. *)
Definition web_stack_missing : Project :=
  loaded [("web", process_decl false ["api"; "cache"; "queue"]);
          ("api", process_decl false []);
          ("cache", process_decl true [])].

(** The same two processes, as two runs range over them. *)
Definition run_ab : Project :=
  loaded [("a", process_decl false []); ("b", process_decl false [])].

Definition run_ba : Project :=
  loaded [("b", process_decl false []); ("a", process_decl false [])].

(** One project as two runs range over it: [Processes] and the
    [DependsOn] of [web] come in two orders. *)
Definition run_one : Project :=
  loaded [("web", process_decl false ["api"; "db"]);
          ("api", process_decl false []);
          ("db", process_decl false [])].

Definition run_two : Project :=
  loaded [("db", process_decl false []);
          ("web", process_decl false ["db"; "api"]);
          ("api", process_decl false [])].

(** Handles for examples: every wait returns [exitCode], and the calls
    leave the project as it is. *)
Definition exits_with (exitCode : Z) : Process -> string -> Project -> Z * Project :=
  fun _ _ p => (exitCode, p).

Definition no_effect : Process -> Project -> Project := fun _ p => p.

Definition handle_of (name : string) (proc : ProcessConfig) : Process :=
  NewProcess [] NewNilLogger (set_Name name proc) None 1.

(** [web] waits for [db] to complete successfully; [db] is running. *)
Definition web_needs_db : ProcessConfig :=
  {| Name := "";
     Disabled := false;
     LogLocation := "";
     DependsOn :=
       [("db", {| Condition := ProcessConditionCompletedSuccessfully |})] |}.

Definition db_running : Project :=
  (addRunningProcess (handle_of "db" (process_decl false []))
     (loaded [("web", web_needs_db); ("db", process_decl false [])])).1.2.

(** [b] depends on the undeclared [zz]; [a] depends on nothing. *)
Definition bad_first : Project :=
  loaded [("b", process_decl false ["zz"]); ("a", process_decl false [])].

(** A directory that holds [compose.yml] and [process-compose.yaml]. *)
Definition slash_join (pwd n : string) : string := pwd +:+ "/" +:+ n.

Definition two_files (f : string) : bool :=
  bool_decide (f ∈ ["/srv/compose.yml"; "/srv/process-compose.yaml"]).

(** ** [GetLexicographicProcessNames] *)

(** [s1 <= s2] on Go strings: the order of the bytes, the first difference
    deciding, a prefix before what it is a prefix of. *)
Definition string_le (s1 s2 : string) : Prop := String.leb s1 s2 = true.

Global Instance string_le_dec s1 s2 : Decision (string_le s1 s2).
Proof. unfold string_le. apply _. Defined.

(** [for name := range p.Processes { names = append(names, name) }] *)
Fixpoint collect_names (entries : GoMap ProcessConfig) (names : list string)
    : list string :=
  match entries with
  | [] => names
  | (name, _) :: entries' => collect_names entries' (names ++ [name])
  end.

Section Lexicographic.

(** [sort.Strings], of Go's standard library, which sorts a slice of
    strings in increasing order. *)
Variable sort_Strings : list string -> list string.

Definition GetLexicographicProcessNames (p : Project)
    : list string * option error :=
  (sort_Strings (collect_names (Processes p) []), None).

End Lexicographic.

(** ** A visitor with a record of its calls *)

(** The visitor [fn], recording the processes it is called on, the
    failing call too. *)
Definition logged {St} (fn : ProcessFunc St)
    : ProcessFunc (list ProcessConfig * St) :=
  fun process '(calls, st) =>
    let '(st', err) := fn process st in
    ((calls ++ [process], st'), err).

(** The calls of [fn] along the processes [out], one after the other from
    the state [st], up to and with the first call that returns an error:
    the processes [fn] was called on, the state the last call left, and
    that error. *)
Fixpoint visit_until {St} (fn : ProcessFunc St) (out : list ProcessConfig)
    (st : St) : list ProcessConfig * St * option error :=
  match out with
  | [] => ([], st, None)
  | process :: out' =>
      match fn process st with
      | (st', Some err) => ([process], st', Some err)
      | (st', None) =>
          let '(calls, st'', err) := visit_until fn out' st' in
          (process :: calls, st'', err)
      end
  end.

(** How a walk with the visitor [logged fn], begun with the calls [calls0]
    and the state [st], stands to the walk of [Run] over the same names
    that appended [new] and returned [err1] and [done1]: it has called
    [fn] along [new] up to the first error of [fn], which it returns; when
    [fn] returned no error it returns what the walk of [Run] returns. *)
Definition visited {St} (fn : ProcessFunc St) (err1 : option error)
    (done1 : gmap string bool) (new calls0 : list ProcessConfig) (st : St)
    (r2 : option (Walk (list ProcessConfig * St))) : Prop :=
  ∃ done2,
    r2 = Some (match (visit_until fn new st).2 with
               | Some err => Some err
               | None => err1
               end,
               done2,
               (calls0 ++ (visit_until fn new st).1.1,
                (visit_until fn new st).1.2))
    ∧ ((visit_until fn new st).2 = None -> done2 = done1).

(** A visitor that records the names it is called on and returns an error
    on the process [bad]. *)
Definition fails_on (bad : string) : ProcessFunc (list string) :=
  fun process order =>
    (order ++ [Name process],
     if decide (Name process = bad) then Some (NotRunning bad) else None).

(** ** The handles of [Run] *)

(** The handle [runProcess] makes for [proc] on the project [p]. *)
Definition handle_for (isStringDefined : string -> bool) (p : Project)
    (proc : ProcessConfig) : Process :=
  NewProcess (Environment p)
    (if isStringDefined (LogLocation proc) then NewLogger (LogLocation proc)
     else logger p)
    proc (GetProcessState p (Name proc)) 1.

(** The state record [initProcessStates] makes for a process. *)
Definition initial_state (name : string) (proc : ProcessConfig)
    : ProcessState.t :=
  {| ProcessState.Name := name;
     ProcessState.Status :=
       if Disabled proc then ProcessStateDisabled else ProcessStatePending;
     ProcessState.Restarts := 0;
     ProcessState.ExitCode := 0 |}.

(** ** Facts about maps and [getProcesses] *)

Lemma map_get_Some_elem {V} (m : GoMap V) k v :
  map_get m k = Some v -> (k, v) ∈ m.
Proof.
  induction m as [|[k' v'] m IH]; simpl; [done|].
  case_decide; intros Hg; simplify_eq; [left | right; auto].
Qed.

Lemma map_get_None {V} (m : GoMap V) k :
  map_get m k = None <-> k ∉ map_keys m.
Proof.
  unfold map_keys. induction m as [|[k' v'] m IH]; simpl.
  - split; [intros _; apply not_elem_of_nil | done].
  - rewrite not_elem_of_cons, <- IH. case_decide as Hk.
    + split; [discriminate|]. by intros [? _].
    + split; [intros ?; split; [congruence|done]|by intros [_ ?]].
Qed.

Lemma map_get_elem {V} (m : GoMap V) k v :
  map_wf m -> (k, v) ∈ m -> map_get m k = Some v.
Proof.
  unfold map_wf, map_keys. induction m as [|[k' v'] m IH]; simpl.
  - intros _ Hin. by apply elem_of_nil in Hin.
  - rewrite NoDup_cons. intros [Hk Hm] [Hin|Hin]%elem_of_cons.
    + simplify_eq. by rewrite decide_True.
    + rewrite decide_False; [auto|]. intros ->. apply Hk.
      apply list_elem_of_fmap. by exists (k, v).
Qed.

Lemma is_done_insert done n x :
  is_done (<[n := true]> done) x = true <-> x = n ∨ is_done done x = true.
Proof.
  unfold is_done. destruct (decide (x = n)) as [->|Hne].
  - rewrite lookup_insert_eq. split; [by left|done].
  - rewrite lookup_insert_ne by done. split; [by right|by intros [?|?]].
Qed.

Lemma is_done_empty x : is_done ∅ x = false.
Proof. unfold is_done. by rewrite lookup_empty. Qed.

Section WalkFacts.

Variable p : Project.

Lemma config_of_Name name c : config_of p name = Some c -> Name c = name.
Proof.
  unfold config_of. destruct (map_get _ _) as [proc|]; simpl; [|done].
  destruct (Disabled proc); [done|]. by intros [= <-].
Qed.

Lemma config_of_Disabled name c :
  config_of p name = Some c -> Disabled c = false.
Proof.
  unfold config_of. destruct (map_get _ _) as [proc|]; simpl; [|done].
  destruct (Disabled proc) eqn:E; [done|]. by intros [= <-].
Qed.

Lemma enabled_declared name : enabled p name -> declared p name.
Proof.
  unfold enabled, declared, config_of. intros [c Hc].
  destruct (map_get _ _); [eauto | done].
Qed.

Lemma deps_of_config name c :
  config_of p name = Some c -> deps_of p name = GetDependencies c.
Proof. unfold deps_of. by intros ->. Qed.

(** [getProcesses] appends to what it has. *)
Lemma getProcesses_all_app entries acc :
  getProcesses_all entries acc =
  acc ++ omap (fun '(name, proc) =>
                 if Disabled proc then None else Some (set_Name name proc))
              entries.
Proof.
  revert acc. induction entries as [|[name proc] entries IH]; intros acc; simpl.
  - by rewrite app_nil_r.
  - destruct (Disabled proc); rewrite IH; [done|]. by rewrite <- app_assoc.
Qed.

Lemma getProcesses_named_ok names acc processes :
  getProcesses_named p names acc = (processes, None) ->
  processes = acc ++ omap (config_of p) names ∧ Forall (declared p) names.
Proof.
  revert acc. induction names as [|name names IH]; intros acc; simpl.
  - intros [= <-]. by rewrite app_nil_r.
  - unfold config_of at 1, declared at 1.
    destruct (map_get _ name) as [proc|] eqn:E; simpl; [|done].
    destruct (Disabled proc); intros H%IH; destruct H as [-> H];
      (split; [|constructor; eauto]); [done|].
    by rewrite <- app_assoc.
Qed.

Lemma getProcesses_named_err names acc processes err :
  getProcesses_named p names acc = (processes, Some err) ->
  ∃ name, err = NoSuchProcess name ∧ name ∈ names ∧ ¬ declared p name.
Proof.
  revert acc. induction names as [|name names IH]; intros acc; simpl; [done|].
  destruct (map_get _ name) as [proc|] eqn:E.
  - destruct (Disabled proc); intros (n & ? & ? & ?)%IH;
      exists n; split_and!; auto; by right.
  - intros [= <- <-]. exists name. split_and!; [done|by left|].
    unfold declared. rewrite E. by intros [? ?].
Qed.

Lemma getProcesses_named_declared names acc :
  Forall (declared p) names -> (getProcesses_named p names acc).2 = None.
Proof.
  intros H. revert acc. induction H as [|name names [proc Hn] _ IH];
    intros acc; simpl; [done|].
  rewrite Hn. destruct (Disabled proc); apply IH.
Qed.

Lemma omap_entries_config (entries : GoMap ProcessConfig) :
  map_wf (Processes p) -> entries ⊆ Processes p ->
  omap (fun '(name, proc) =>
          if Disabled proc then None else Some (set_Name name proc)) entries
  = omap (config_of p) (map_keys entries).
Proof.
  intros Hwf. induction entries as [|[name proc] entries IH]; intros Hsub;
    simpl; [done|].
  unfold config_of at 1.
  rewrite (map_get_elem _ name proc Hwf) by (apply Hsub; left). simpl.
  assert (entries ⊆ Processes p) as IH'%IH.
  { intros x Hx. apply Hsub. by right. }
  destruct (Disabled proc); [exact IH' | f_equal; exact IH'].
Qed.

(** What [getProcesses] returns when it returns no error: the
    configurations of the start names that are not disabled, in order. *)
Lemma getProcesses_ok names processes :
  map_wf (Processes p) ->
  getProcesses p names = (processes, None) ->
  processes = omap (config_of p) (start_names p names)
  ∧ Forall (declared p) names.
Proof.
  intros Hwf. unfold getProcesses, start_names. case_decide as Hlen.
  - intros [= <-]. rewrite getProcesses_all_app. simpl.
    split; [by apply omap_entries_config|].
    destruct names; [constructor | done].
  - intros H%getProcesses_named_ok. apply H.
Qed.

Lemma getProcesses_err names processes err :
  getProcesses p names = (processes, Some err) ->
  ∃ name, err = NoSuchProcess name ∧ name ∈ names ∧ ¬ declared p name.
Proof.
  unfold getProcesses. case_decide; [done|]. apply getProcesses_named_err.
Qed.

Lemma getProcesses_declared names :
  Forall (declared p) names -> (getProcesses p names).2 = None.
Proof.
  unfold getProcesses. case_decide; [done|]. apply getProcesses_named_declared.
Qed.

Lemma elem_of_omap_config (roots : list string) c :
  c ∈ omap (config_of p) roots <->
  Name c ∈ roots ∧ config_of p (Name c) = Some c.
Proof.
  rewrite list_elem_of_omap. split.
  - intros (r & Hr & Hc). by rewrite (config_of_Name _ _ Hc).
  - intros [Hr Hc]. eauto.
Qed.

End WalkFacts.

(** ** The walker and the relation [walks] *)

Section WalkSound.

Variable p : Project.

Lemma withProcesses_loop_loops
    (rec : list string -> gmap string bool -> list ProcessConfig ->
           option (Walk (list ProcessConfig))) :
  (∀ names done out err done' out',
      rec names done out = Some (err, done', out') ->
      ∃ new, out' = out ++ new ∧ walks p names done err done' new) ->
  ∀ processes done out err done' out',
    withProcesses_loop append_process rec processes done out
      = Some (err, done', out') ->
    ∃ new, out' = out ++ new ∧ loops p processes done err done' new.
Proof.
  intros Hrec. induction processes as [|process processes IH];
    intros done out err done' out'; simpl.
  - intros [= <- <- <-]. exists []. rewrite app_nil_r. split; [done|constructor].
  - destruct (is_done done (Name process)) eqn:Hdone.
    { intros (new & -> & Hl)%IH. exists new. split; [done|].
      by apply loops_skip. }
    case_decide as Hdeps.
    + destruct (rec _ _ _) as [[[[e1|] done1] out1]|] eqn:Hr; [| |done].
      * intros [= <- <- <-]. apply Hrec in Hr as (new & -> & Hw).
        exists new. split; [done|]. apply loops_abort; [done| |done].
        intros E. rewrite E in Hdeps. simpl in Hdeps. lia.
      * apply Hrec in Hr as (new1 & -> & Hw).
        intros (new & -> & Hl)%IH. exists (new1 ++ process :: new).
        split; [by rewrite <- !app_assoc|].
        eapply loops_node; [done| |done|done].
        intros E. rewrite E in Hdeps. simpl in Hdeps. lia.
    + intros (new & -> & Hl)%IH. exists (process :: new).
      split; [by rewrite <- app_assoc|].
      apply loops_leaf; [done| |done].
      destruct (GetDependencies process); [done|]. simpl in Hdeps. lia.
Qed.

(** Every run of the walker with the visitor of [Run] is a run of the
    relation. *)
Lemma withProcesses_walks fuel :
  ∀ names done out err done' out',
    withProcesses p fuel names append_process done out
      = Some (err, done', out') ->
    ∃ new, out' = out ++ new ∧ walks p names done err done' new.
Proof.
  induction fuel as [|fuel IH]; intros names dn out err dn' out'; simpl.
  { discriminate. }
  destruct (getProcesses p names) as [processes [e|]] eqn:Hg.
  - intros [= <- <- <-]. exists []. rewrite app_nil_r. split; [done|].
    by eapply walks_err.
  - intros (new & -> & Hl)%(withProcesses_loop_loops _ IH).
    exists new. split; [done|]. by eapply walks_ok.
Qed.

End WalkSound.

(** ** Invariants of a walk *)

Section WalkInvariants.

Variable p : Project.

Lemma grows_refl done : grows done done [].
Proof. split_and!; [done| |constructor]. by intros c ?%elem_of_nil. Qed.

Lemma grows_insert done name done' new :
  grows (<[name := true]> done) done' new -> grows done done' new.
Proof.
  intros (Hm & Hf & Hn). split_and!; [| |done].
  - intros x Hx. apply Hm, is_done_insert. by right.
  - intros c [H1 H2]%Hf. split; [|done].
    destruct (is_done done (Name c)) eqn:E; [|done].
    rewrite <- H1. symmetry. apply is_done_insert. by right.
Qed.

Lemma grows_cons done process done' new :
  is_done done (Name process) = false ->
  grows (<[Name process := true]> done) done' new ->
  grows done done' (process :: new).
Proof.
  intros Hd (Hm & Hf & Hn). split_and!.
  - intros x Hx. apply Hm, is_done_insert. by right.
  - intros c [-> | Hc]%elem_of_cons.
    + split; [done|]. apply Hm, is_done_insert. by left.
    + by apply (grows_insert _ _ _ _ (conj Hm (conj Hf Hn))).
  - rewrite fmap_cons. apply NoDup_cons. split; [|done].
    intros (c & Hc & [H1 _]%Hf)%list_elem_of_fmap.
    assert (is_done (<[Name process := true]> done) (Name c) = true);
      [|congruence].
    apply is_done_insert. by left.
Qed.

Lemma grows_snoc done process done' new :
  is_done done (Name process) = false ->
  grows (<[Name process := true]> done) done' new ->
  grows done done' (new ++ [process]).
Proof.
  intros Hd (Hm & Hf & Hn).
  assert (is_done (<[Name process := true]> done) (Name process) = true)
    as Hp by (apply is_done_insert; by left).
  split_and!.
  - intros x Hx. apply Hm, is_done_insert. by right.
  - intros c [Hc | ->%list_elem_of_singleton]%elem_of_app.
    + by apply (grows_insert _ _ _ _ (conj Hm (conj Hf Hn))).
    + split; [done|]. by apply Hm.
  - rewrite fmap_app. apply NoDup_app. split_and!; [done| |].
    + intros x (c & -> & [H1 _]%Hf)%list_elem_of_fmap
               E%list_elem_of_singleton. congruence.
    + apply NoDup_singleton.
Qed.

Lemma grows_app done done1 done2 new1 new2 :
  grows done done1 new1 -> grows done1 done2 new2 ->
  grows done done2 (new1 ++ new2).
Proof.
  intros (Hm1 & Hf1 & Hn1) (Hm2 & Hf2 & Hn2). split_and!.
  - auto.
  - intros c [[H1 H2]%Hf1|[H1 H2]%Hf2]%elem_of_app; split; auto.
    destruct (is_done done (Name c)) eqn:E; [|done].
    apply Hm1 in E. congruence.
  - rewrite fmap_app. apply NoDup_app. split_and!; [done| |done].
    intros x (c1 & -> & [_ H1]%Hf1)%list_elem_of_fmap
             (c2 & E & [H2 _]%Hf2)%list_elem_of_fmap.
    rewrite E in H1. congruence.
Qed.

Lemma walks_grows :
  (∀ names done err done' new,
      walks p names done err done' new -> grows done done' new)
  ∧ (∀ processes done err done' new,
      loops p processes done err done' new -> grows done done' new).
Proof.
  apply walks_mutind; intros.
  - apply grows_refl.
  - done.
  - apply grows_refl.
  - done.
  - by apply grows_cons.
  - by eapply grows_insert.
  - rewrite cons_middle, app_assoc.
    eapply grows_app; [by apply grows_snoc|done].
Qed.

Lemma walks_mono names done err done' new x :
  walks p names done err done' new ->
  is_done done x = true -> is_done done' x = true.
Proof. intros H. apply (proj1 walks_grows _ _ _ _ _ H). Qed.

Lemma loops_mono processes done err done' new x :
  loops p processes done err done' new ->
  is_done done x = true -> is_done done' x = true.
Proof. intros H. apply (proj2 walks_grows _ _ _ _ _ H). Qed.

Lemma getProcesses_good names processes :
  map_wf (Processes p) ->
  getProcesses p names = (processes, None) ->
  Forall (good p) processes
  ∧ Name <$> processes ⊆ start_names p names
  ∧ (∀ r, r ∈ start_names p names -> enabled p r -> r ∈ Name <$> processes).
Proof.
  intros Hwf [-> _]%getProcesses_ok; [|done]. split_and!.
  - apply Forall_forall. by intros c [_ Hc]%elem_of_omap_config.
  - intros x (c & -> & [Hc _]%elem_of_omap_config)%list_elem_of_fmap. done.
  - intros r Hr [c Hc]. apply list_elem_of_fmap. exists c.
    pose proof (config_of_Name _ _ _ Hc) as <-.
    split; [done|]. by apply elem_of_omap_config.
Qed.

Lemma start_names_nonempty names : names ≠ [] -> start_names p names = names.
Proof.
  unfold start_names. destruct names; [done|]. by rewrite decide_False.
Qed.

Lemma from_mono roots roots' x :
  roots ⊆ roots' -> from p roots x -> from p roots' x.
Proof. intros Hs (r & Hr & He & Hx). exists r. auto. Qed.

Lemma from_root roots r : r ∈ roots -> enabled p r -> from p roots r.
Proof. intros Hr He. exists r. split_and!; [done|done|apply rtc_refl]. Qed.

Lemma from_deps c roots x :
  good p c -> Name c ∈ roots -> from p (GetDependencies c) x -> from p roots x.
Proof.
  intros Hc Hin (r & Hr & He & Hx). exists (Name c). split_and!; [done| |].
  - by exists c.
  - eapply rtc_l; [|done]. split; [|done]. by rewrite (deps_of_config _ _ _ Hc).
Qed.

Hypothesis Hwf : map_wf (Processes p).

(** A call that returns no error has marked every start name that is not
    disabled, and has appended every process it marked. *)
Lemma walks_success :
  (∀ names done err done' new,
      walks p names done err done' new -> err = None ->
      Forall (declared p) names
      ∧ (∀ r, r ∈ start_names p names -> enabled p r ->
              is_done done' r = true)
      ∧ (∀ x, is_done done' x = true ->
              is_done done x = true ∨ x ∈ Name <$> new))
  ∧ (∀ processes done err done' new,
      loops p processes done err done' new -> err = None ->
      (∀ c, c ∈ processes -> is_done done' (Name c) = true)
      ∧ (∀ x, is_done done' x = true ->
              is_done done x = true ∨ x ∈ Name <$> new)).
Proof.
  apply walks_mutind.
  - done.
  - intros names dn processes err dn' new Hg Hl IH ->.
    destruct (IH eq_refl) as [Hp Hx].
    destruct (getProcesses_good _ _ Hwf Hg) as (_ & _ & Hr).
    split_and!; [|
      |done].
    + by apply getProcesses_ok in Hg as [_ ?].
    + intros r Hin He.
      pose proof (Hr r Hin He) as (c & -> & Hc)%list_elem_of_fmap. auto.
  - intros dn _. split; [|auto]. by intros c ?%elem_of_nil.
  - intros process processes dn err dn' new Hd Hl IH ->.
    destruct (IH eq_refl) as [Hp Hx]. split; [|done].
    intros c [-> | Hc]%elem_of_cons; [|auto].
    by apply (loops_mono _ _ _ _ _ _ Hl).
  - intros process processes dn err dn' new Hd Hdeps Hl IH ->.
    destruct (IH eq_refl) as [Hp Hx]. split.
    + intros c [-> | Hc]%elem_of_cons; [|auto].
      apply (loops_mono _ _ _ _ _ _ Hl), is_done_insert. by left.
    + intros x [[-> | ?]%is_done_insert | Hin]%Hx; [right; left|by left|].
      right. by right.
  - done.
  - intros process processes dn dn1 new1 err dn' new Hd Hdeps Hw IH1 Hl IH2 ->.
    destruct (IH1 eq_refl) as (_ & _ & Hx1).
    destruct (IH2 eq_refl) as [Hp Hx2]. split.
    + intros c [-> | Hc]%elem_of_cons; [|auto].
      apply (loops_mono _ _ _ _ _ _ Hl).
      apply (walks_mono _ _ _ _ _ _ Hw), is_done_insert. by left.
    + intros x [[[-> | ?]%is_done_insert | Hin]%Hx1 | Hin]%Hx2.
      * right. rewrite fmap_app, fmap_cons. set_solver.
      * by left.
      * right. rewrite fmap_app. set_solver.
      * right. rewrite fmap_app, fmap_cons. set_solver.
Qed.

Lemma walks_visits :
  (∀ names done err done' new,
      walks p names done err done' new ->
      visits p (start_names p names) done done' new)
  ∧ (∀ processes done err done' new,
      loops p processes done err done' new ->
      Forall (good p) processes ->
      visits p (Name <$> processes) done done' new).
Proof.
  apply walks_mutind.
  - intros names dn processes err Hg. split; [|auto].
    by intros c ?%elem_of_nil.
  - intros names dn processes err dn' new Hg Hl IH.
    destruct (getProcesses_good _ _ Hwf Hg) as (Hgood & Hsub & _).
    destruct (IH Hgood) as [Ha Hb]. split; [done|].
    intros x [?|?]%Hb; [by left|right]. by eapply from_mono.
  - intros dn _. split; [|auto]. by intros c ?%elem_of_nil.
  - intros process processes dn err dn' new Hd Hl IH
      [Hc Hgood]%Forall_cons.
    destruct (IH Hgood) as [Ha Hb]. split; [done|].
    intros x [?|?]%Hb; [by left|right].
    eapply from_mono; [|done]. rewrite fmap_cons. set_solver.
  - intros process processes dn err dn' new Hd Hdeps Hl IH
      [Hc Hgood]%Forall_cons.
    destruct (IH Hgood) as [Ha Hb]. split.
    + intros c [-> | Hin]%elem_of_cons; [|auto].
      split; [done|]. rewrite Hdeps. by intros d ?%elem_of_nil.
    + intros x [[-> | ?]%is_done_insert|?]%Hb; [right|by left|right].
      * apply from_root; [rewrite fmap_cons; set_solver|by exists process].
      * eapply from_mono; [|done]. rewrite fmap_cons. set_solver.
  - intros process processes dn err dn' new Hd Hdeps Hw IH
      [Hc Hgood]%Forall_cons.
    destruct IH as [Ha Hb]. split; [done|].
    rewrite start_names_nonempty in Hb by done.
    intros x [[-> | ?]%is_done_insert|?]%Hb; [right|by left|right].
    + apply from_root; [rewrite fmap_cons; set_solver|by exists process].
    + eapply from_deps; [done| |done]. rewrite fmap_cons. set_solver.
  - intros process processes dn dn1 new1 err dn' new Hd Hdeps Hw IH1 Hl IH2
      [Hc Hgood]%Forall_cons.
    destruct IH1 as [Ha1 Hb1]. destruct (IH2 Hgood) as [Ha2 Hb2].
    rewrite start_names_nonempty in Hb1 by done.
    destruct (proj1 walks_success _ _ _ _ _ Hw eq_refl) as (Hdecl & Hroots & _).
    rewrite start_names_nonempty in Hroots by done.
    split.
    + intros c [Hin | [-> | Hin]%elem_of_cons]%elem_of_app.
      * destruct (Ha1 c Hin) as [? Hdc]. split; [done|].
        intros d [? ?]%Hdc. split; [done|]. intros ?.
        apply (loops_mono _ _ _ _ _ _ Hl). auto.
      * split; [done|]. intros d Hin. split.
        { by apply (proj1 (Forall_forall _ _) Hdecl). }
        intros ?. apply (loops_mono _ _ _ _ _ _ Hl). auto.
      * auto.
    + intros x [[[-> | ?]%is_done_insert|?]%Hb1|?]%Hb2.
      * right. apply from_root;
          [rewrite fmap_cons; set_solver|by exists process].
      * by left.
      * right. eapply from_deps; [done| |done]. rewrite fmap_cons. set_solver.
      * right. eapply from_mono; [|done]. rewrite fmap_cons. set_solver.
Qed.

(** The only error of a walk with this visitor names an undeclared
    process, a start name or a dependency of a process the walk marked. *)
Lemma walks_failure :
  (∀ names done err done' new,
      walks p names done err done' new -> ∀ e, err = Some e ->
      ∃ n, e = NoSuchProcess n ∧ ¬ declared p n
           ∧ (n ∈ names
              ∨ ∃ x, is_done done' x = true ∧ is_done done x = false
                     ∧ n ∈ deps_of p x))
  ∧ (∀ processes done err done' new,
      loops p processes done err done' new ->
      Forall (good p) processes -> ∀ e, err = Some e ->
      ∃ n, e = NoSuchProcess n ∧ ¬ declared p n
           ∧ ∃ x, is_done done' x = true ∧ is_done done x = false
                  ∧ n ∈ deps_of p x).
Proof.
  assert (∀ (dn : gmap string bool) name x,
             is_done (<[name := true]> dn) x = false -> is_done dn x = false)
    as Hins.
  { intros dn name x Hx. destruct (is_done dn x) eqn:E; [|done].
    rewrite <- Hx. symmetry. apply is_done_insert. by right. }
  apply walks_mutind.
  - intros names dn processes err Hg e [= ->].
    apply getProcesses_err in Hg as (n & -> & Hin & Hn). eauto.
  - intros names dn processes err dn' new Hg Hl IH e He.
    destruct (getProcesses_good _ _ Hwf Hg) as (Hgood & _ & _).
    destruct (IH Hgood e He) as (n & -> & Hn & Hx). eauto.
  - done.
  - intros process processes dn err dn' new Hd Hl IH
      [Hc Hgood]%Forall_cons e He. eauto.
  - intros process processes dn err dn' new Hd Hdeps Hl IH
      [Hc Hgood]%Forall_cons e He.
    destruct (IH Hgood e He) as (n & -> & Hn & x & Hx1 & Hx2 & Hx3).
    exists n. split_and!; [done|done|]. exists x. eauto.
  - intros process processes dn err dn' new Hd Hdeps Hw IH
      [Hc Hgood]%Forall_cons e [= <-].
    destruct (IH err eq_refl) as (n & -> & Hn & [Hin|(x & Hx1 & Hx2 & Hx3)]).
    + exists n. split_and!; [done|done|]. exists (Name process).
      split_and!; [|done|by rewrite (deps_of_config _ _ _ Hc)].
      apply (walks_mono _ _ _ _ _ _ Hw), is_done_insert. by left.
    + exists n. split_and!; [done|done|]. exists x. eauto.
  - intros process processes dn dn1 new1 err dn' new Hd Hdeps Hw IH1 Hl IH2
      [Hc Hgood]%Forall_cons e He.
    destruct (IH2 Hgood e He) as (n & -> & Hn & x & Hx1 & Hx2 & Hx3).
    exists n. split_and!; [done|done|]. exists x. split_and!; [done| |done].
    destruct (is_done dn x) eqn:E; [|done]. rewrite <- Hx2. symmetry.
    apply (walks_mono _ _ _ _ _ _ Hw), is_done_insert. by right.
Qed.

Lemma ordered_mono (ok ok' : string -> Prop) new :
  (∀ d, ok d -> ok' d) -> ordered p ok new -> ordered p ok' new.
Proof.
  revert ok ok'. induction new as [|c new IH]; intros ok ok' Hok; simpl;
    [done|].
  intros [Hc Hnew]. split; [auto|].
  eapply IH; [|done]. intros d [?|?]; auto.
Qed.

Lemma ordered_app (ok : string -> Prop) new1 new2 :
  ordered p ok (new1 ++ new2) <->
  ordered p ok new1 ∧ ordered p (fun d => ok d ∨ d ∈ Name <$> new1) new2.
Proof.
  clear Hwf. revert ok. induction new1 as [|c new1 IH]; intros ok; simpl.
  - split.
    + intros H. split; [done|]. eapply ordered_mono; [|done]. auto.
    + intros [_ H]. eapply ordered_mono; [|done].
      intros d [?|?%elem_of_nil]; done.
  - rewrite IH. split.
    + intros (Hc & H1 & H2). split_and!; [done|done|].
      eapply ordered_mono; [|done]. set_solver.
    + intros ((Hc & H1) & H2). split_and!; [done|done|].
      eapply ordered_mono; [|done]. set_solver.
Qed.

(** On a graph without cycles, a call appends every process after its
    dependencies.  [pend] are the processes that are marked and not yet
    appended: each of them reaches every start name of the call. *)
Lemma walks_ordered :
  acyclic p ->
  (∀ names done err done' new,
      walks p names done err done' new ->
      ∀ pend : string -> Prop,
        (∀ x r, pend x -> r ∈ start_names p names -> enabled p r ->
                tc (edge p) x r) ->
        ordered p (fun d => is_done done d = true ∧ ¬ pend d) new)
  ∧ (∀ processes done err done' new,
      loops p processes done err done' new ->
      Forall (good p) processes ->
      ∀ pend : string -> Prop,
        (∀ x r, pend x -> r ∈ Name <$> processes -> enabled p r ->
                tc (edge p) x r) ->
        ordered p (fun d => is_done done d = true ∧ ¬ pend d) new).
Proof.
  intros Hacyc.
  assert (∀ process (pend : string -> Prop) (roots : list string),
             good p process -> Name process ∈ roots ->
             (∀ x r, pend x -> r ∈ roots -> enabled p r -> tc (edge p) x r) ->
             ∀ x r, (pend x ∨ x = Name process) ->
                    r ∈ GetDependencies process -> enabled p r ->
                    tc (edge p) x r) as Hpush.
  { intros process pend roots Hc Hin Hpend x r Hx Hr He.
    assert (edge p (Name process) r) as Hedge.
    { split; [|done]. by rewrite (deps_of_config _ _ _ Hc). }
    destruct Hx as [Hx | ->]; [|by apply tc_once].
    eapply tc_r; [|done]. apply Hpend; [done|done|by exists process]. }
  apply walks_mutind.
  - done.
  - intros names dn processes err dn' new Hg Hl IH pend Hpend.
    destruct (getProcesses_good _ _ Hwf Hg) as (Hgood & Hsub & _).
    apply IH; [done|]. intros x r Hx Hr. apply Hpend; auto.
  - done.
  - intros process processes dn err dn' new Hd Hl IH
      [Hc Hgood]%Forall_cons pend Hpend.
    apply IH; [done|]. intros x r Hx Hr. apply Hpend; [done|].
    rewrite fmap_cons. by right.
  - intros process processes dn err dn' new Hd Hdeps Hl IH
      [Hc Hgood]%Forall_cons pend Hpend. simpl. split.
    + rewrite Hdeps. by intros d ?%elem_of_nil.
    + eapply ordered_mono; [|apply (IH Hgood pend)].
      * intros d [[-> | ?]%is_done_insert Hp]; auto.
      * intros x r Hx Hr. apply Hpend; [done|]. rewrite fmap_cons. by right.
  - intros process processes dn err dn' new Hd Hdeps Hw IH
      [Hc Hgood]%Forall_cons pend Hpend.
    eapply ordered_mono;
      [|apply (IH (fun x => pend x ∨ x = Name process))].
    + intros d [[-> | ?]%is_done_insert Hp]; [|split; [done|]]; tauto.
    + rewrite start_names_nonempty by done.
      eapply Hpush; [done| |done]. rewrite fmap_cons. by left.
  - intros process processes dn dn1 new1 err dn' new Hd Hdeps Hw IH1 Hl IH2
      [Hc Hgood]%Forall_cons pend Hpend.
    assert (∀ x r, (pend x ∨ x = Name process) ->
                   r ∈ GetDependencies process -> enabled p r ->
                   tc (edge p) x r) as Hpend'.
    { eapply Hpush; [done| |done]. rewrite fmap_cons. by left. }
    destruct (proj1 walks_success _ _ _ _ _ Hw eq_refl) as (_ & Hroots & Hx1).
    rewrite start_names_nonempty in Hroots by done.
    apply ordered_app. split; [|simpl; split].
    + eapply ordered_mono;
        [|apply (IH1 (fun x => pend x ∨ x = Name process))].
      * intros d [[-> | ?]%is_done_insert Hp]; [|split; [done|]]; tauto.
      * by rewrite start_names_nonempty by done.
    + intros d Hin He.
      destruct (Hx1 d (Hroots d Hin He)) as [[-> | Hdn]%is_done_insert | ?];
        [| |by right].
      * destruct (Hacyc (Name process)). apply Hpend'; auto.
      * left. split; [done|]. intros Hp.
        rewrite <- (deps_of_config _ _ _ Hc) in Hin.
        destruct (Hacyc d). eapply tc_r; [|split; [exact Hin|exact He]].
        apply Hpend; [done|rewrite fmap_cons; by left|by exists process].
    + eapply ordered_mono; [|apply (IH2 Hgood pend)].
      * intros d [[[-> | ?]%is_done_insert | ?]%Hx1 Hp]; auto.
      * intros x r Hx Hr. apply Hpend; [done|]. rewrite fmap_cons. by right.
Qed.

End WalkInvariants.

(** ** The recursion of the walker ends *)

Section WalkerTotal.

Variable p : Project.
Context {St : Type}.
Variable fn : ProcessFunc St.

Lemma undone_bound done : undone p done ≤ length (Processes p).
Proof. apply length_filter. Qed.

Lemma getProcesses_listed names processes err :
  getProcesses p names = (processes, err) -> Forall (listed p) processes.
Proof.
  unfold getProcesses. case_decide.
  - intros [= <- _]. rewrite getProcesses_all_app. simpl.
    apply Forall_forall. intros c ([name proc] & Hin & Hc)%list_elem_of_omap.
    destruct (Disabled proc) eqn:E; [done|]. injection Hc as <-.
    by exists proc.
  - assert (∀ acc, Forall (listed p) acc ->
              getProcesses_named p names acc = (processes, err) ->
              Forall (listed p) processes) as Hgen; [|by apply Hgen].
    clear. induction names as [|name names IH]; intros acc Hacc; simpl.
    + by intros [= <- _].
    + destruct (map_get _ name) as [proc|] eqn:E; [|by intros [= <- _]].
      destruct (Disabled proc) eqn:Ed; apply IH; [done|].
      apply Forall_app. split; [done|]. apply Forall_singleton.
      exists proc. split; [|done]. by apply map_get_Some_elem.
Qed.

Lemma undone_mono done done' :
  (∀ x, is_done done x = true -> is_done done' x = true) ->
  undone p done' ≤ undone p done.
Proof.
  intros Hm. unfold undone.
  induction (Processes p) as [|[name proc] entries IH]; [done|].
  rewrite !filter_cons. unfold is_undone in *.
  repeat case_decide; simpl in *; try lia.
  destruct_and!. destruct (is_done done name) eqn:E; [|tauto].
  apply Hm in E. congruence.
Qed.

Lemma undone_insert done c :
  listed p c -> is_done done (Name c) = false ->
  undone p (<[Name c := true]> done) < undone p done.
Proof.
  intros (proc & Hin & Hd) Hc. unfold undone.
  induction (Processes p) as [|[name proc'] entries IH].
  { by apply elem_of_nil in Hin. }
  assert (length (filter (is_undone (<[Name c := true]> done)) entries)
          ≤ length (filter (is_undone done) entries)) as Hle.
  { clear. induction entries as [|[name proc] entries IH]; [done|].
    rewrite !filter_cons. unfold is_undone in *.
    repeat case_decide; simpl in *; try lia.
    destruct_and!. destruct (is_done done name) eqn:E; [|tauto].
    assert (is_done (<[Name c := true]> done) name = true); [|congruence].
    apply is_done_insert. by right. }
  apply elem_of_cons in Hin as [[= <- <-] | Hin].
  - rewrite !filter_cons. rewrite (decide_True (P := is_undone done _)) by done.
    rewrite decide_False; [simpl; lia|].
    intros [_ E]. simpl in E.
    assert (is_done (<[Name c := true]> done) (Name c) = true); [|congruence].
    apply is_done_insert. by left.
  - specialize (IH Hin). rewrite !filter_cons. unfold is_undone in *.
    repeat case_decide; simpl in *; try lia.
    destruct_and!. destruct (is_done done name) eqn:E; [|tauto].
    assert (is_done (<[Name c := true]> done) name = true); [|congruence].
    apply is_done_insert. by right.
Qed.

(** The map [done] only grows, whatever the visitor. *)
Lemma withProcesses_mono fuel :
  ∀ names done st err done' st',
    withProcesses p fuel names fn done st = Some (err, done', st') ->
    ∀ x, is_done done x = true -> is_done done' x = true.
Proof.
  induction fuel as [|fuel IH]; intros names dn st err dn' st'; simpl.
  { discriminate. }
  destruct (getProcesses p names) as [processes [e|]]; [by intros [= _ <- _]|].
  revert dn st. induction processes as [|process processes IHl];
    intros dn st; simpl.
  { by intros [= _ <- _]. }
  destruct (is_done dn (Name process)) eqn:Hd; [by apply IHl|].
  assert (∀ x, is_done dn x = true ->
               is_done (<[Name process := true]> dn) x = true) as Hins.
  { intros x Hx. apply is_done_insert. by right. }
  case_decide.
  - destruct (withProcesses p fuel _ fn _ st) as [[[[e1|] dn1] st1]|] eqn:Hr;
      [| |done].
    + intros [= _ <- _] x Hx. eapply IH; eauto.
    + destruct (fn process st1) as [st2 [e2|]].
      * intros [= _ <- _] x Hx. eapply IH; eauto.
      * intros Hl x Hx. eapply IHl; [done|]. eapply IH; eauto.
  - destruct (fn process st) as [st2 [e2|]].
    + intros [= _ <- _] x Hx. auto.
    + intros Hl x Hx. eapply IHl; [done|]. auto.
Qed.

(** A depth of more than the number of unmarked processes is enough. *)
Lemma withProcesses_enough fuel :
  ∀ names done st,
    undone p done < fuel -> is_Some (withProcesses p fuel names fn done st).
Proof.
  induction fuel as [|fuel IH]; intros names dn st Hf; simpl; [lia|].
  destruct (getProcesses p names) as [processes [e|]] eqn:Hg; [done|].
  apply getProcesses_listed in Hg.
  revert dn st Hf. induction Hg as [|process processes Hc _ IHl];
    intros dn st Hf; simpl; [done|].
  destruct (is_done dn (Name process)) eqn:Hd; [by apply IHl|].
  pose proof (undone_insert _ _ Hc Hd) as Hlt.
  case_decide.
  - destruct (IH (GetDependencies process) (<[Name process := true]> dn) st)
      as [[[[e1|] dn1] st1] Hr]; [lia| |]; rewrite Hr; [done|].
    pose proof (undone_mono _ _ (withProcesses_mono _ _ _ _ _ _ _ Hr)).
    destruct (fn process st1) as [st2 [e2|]]; [done|]. apply IHl. lia.
  - destruct (fn process st) as [st2 [e2|]]; [done|]. apply IHl. lia.
Qed.

(** More depth changes nothing. *)
Lemma withProcesses_more fuel :
  ∀ fuel' names done st r,
    withProcesses p fuel names fn done st = Some r -> fuel ≤ fuel' ->
    withProcesses p fuel' names fn done st = Some r.
Proof.
  induction fuel as [|fuel IH]; intros fuel' names dn st r; simpl.
  { discriminate. }
  intros Hr Hle. destruct fuel' as [|fuel']; [lia|]. simpl.
  destruct (getProcesses p names) as [processes [e|]]; [done|].
  revert dn st Hr. induction processes as [|process processes IHl];
    intros dn st; simpl; [done|].
  destruct (is_done dn (Name process)); [by apply IHl|].
  case_decide.
  - destruct (withProcesses p fuel _ fn _ st) as [r1|] eqn:Hr1; [|done].
    rewrite (IH fuel' _ _ _ _ Hr1) by lia.
    destruct r1 as [[[e1|] dn1] st1]; [done|].
    destruct (fn process st1) as [st2 [e2|]]; [done|]. apply IHl.
  - destruct (fn process st) as [st2 [e2|]]; [done|]. apply IHl.
Qed.

Lemma WithProcesses_total names st : is_Some (WithProcesses p names fn st).
Proof.
  apply withProcesses_enough. pose proof (undone_bound ∅). lia.
Qed.

End WalkerTotal.

(** ** Two visitors that act alike *)

Section WalkerSim.

Variable p : Project.
Context {St1 St2 : Type}.
Variable fn1 : ProcessFunc St1.
Variable fn2 : ProcessFunc St2.
Variable R : St1 -> St2 -> Prop.

Hypothesis fn_alike : ∀ c st1 st2, R st1 st2 ->
  (fn1 c st1).2 = (fn2 c st2).2 ∧ R (fn1 c st1).1 (fn2 c st2).1.

Lemma withProcesses_alike fuel :
  ∀ names done st1 st2, R st1 st2 ->
    alike R (withProcesses p fuel names fn1 done st1)
          (withProcesses p fuel names fn2 done st2).
Proof.
  induction fuel as [|fuel IH]; intros names dn st1 st2 HR; simpl; [done|].
  destruct (getProcesses p names) as [processes [e|]]; [done|].
  revert dn st1 st2 HR. induction processes as [|process processes IHl];
    intros dn st1 st2 HR; simpl; [done|].
  destruct (is_done dn (Name process)); [by apply IHl|].
  case_decide.
  - specialize (IH (GetDependencies process) (<[Name process := true]> dn)
                  st1 st2 HR).
    destruct (withProcesses p fuel _ fn1 _ st1) as [[[[e1|] d1] s1]|],
             (withProcesses p fuel _ fn2 _ st2) as [[[[e2|] d2] s2]|];
      simpl in IH; try done; destruct IH as (? & <- & HR'); try done.
    destruct (fn_alike process s1 s2 HR') as [He HR''].
    destruct (fn1 process s1) as [s1' e1], (fn2 process s2) as [s2' e2].
    simpl in *. subst e2. destruct e1; [done|]. by apply IHl.
  - destruct (fn_alike process st1 st2 HR) as [He HR''].
    destruct (fn1 process st1) as [s1' e1], (fn2 process st2) as [s2' e2].
    simpl in *. subst e2. destruct e1; [done|]. by apply IHl.
Qed.

End WalkerSim.

(** The walk of [GetDependenciesOrderNames] is the walk of [Run], names for
    configurations. *)
Lemma WithProcesses_names p names err done out :
  WithProcesses p names append_process [] = Some (err, done, out) ->
  WithProcesses p names append_name [] = Some (err, done, Name <$> out).
Proof.
  intros H. unfold WithProcesses in *.
  pose proof (withProcesses_alike p append_process append_name
                (fun out order => order = Name <$> out)) as Ha.
  specialize (Ha (fun c st1 st2 HR =>
    conj eq_refl (eq_trans (f_equal (fun l => l ++ [Name c]) HR)
                           (eq_sym (fmap_app Name st1 [c]))))).
  specialize (Ha (S (length (Processes p))) names ∅ [] [] eq_refl).
  rewrite H in Ha.
  destruct (withProcesses p _ names append_name ∅ []) as [[[e2 d2] s2]|];
    [|done].
  by destruct Ha as (-> & -> & ->).
Qed.

(** A visitor that returns no error is called on the processes that the
    visitor of [Run] appends, in that order. *)
Lemma WithProcesses_visitor {St} p (fn : ProcessFunc St) names st err done out :
  (∀ c s, (fn c s).2 = None) ->
  WithProcesses p names append_process [] = Some (err, done, out) ->
  WithProcesses p names fn st
  = Some (err, done, foldl (fun s c => (fn c s).1) st out).
Proof.
  intros Hfn H. unfold WithProcesses in *.
  pose proof (withProcesses_alike p append_process fn
                (fun out s => s = foldl (fun s c => (fn c s).1) st out)) as Ha.
  assert (∀ c (st1 : list ProcessConfig) (st2 : St),
             st2 = foldl (fun s c => (fn c s).1) st st1 ->
             (append_process c st1).2 = (fn c st2).2
             ∧ (fn c st2).1
               = foldl (fun s c => (fn c s).1) st (append_process c st1).1)
    as Hstep.
  { intros c st1 st2 ->. split; [by rewrite Hfn|].
    simpl. by rewrite foldl_app. }
  specialize (Ha Hstep (S (length (Processes p))) names ∅ [] st eq_refl).
  rewrite H in Ha.
  destruct (withProcesses p _ names fn ∅ st) as [[[e2 d2] s2]|]; [|done].
  by destruct Ha as (-> & -> & ->).
Qed.

Lemma WithProcesses_walks p names err done out :
  WithProcesses p names append_process [] = Some (err, done, out) ->
  walks p names ∅ err done out.
Proof. by intros (new & -> & Hw)%withProcesses_walks. Qed.

(** ** What [WithProcesses] returns *)

Section WalkResults.

Variable p : Project.
Hypothesis Hwf : map_wf (Processes p).

Lemma walk_marked_reachable names err done out x :
  WithProcesses p names append_process [] = Some (err, done, out) ->
  is_done done x = true -> reachable p names x.
Proof.
  intros Hw%WithProcesses_walks Hx.
  destruct (proj1 (walks_visits p Hwf) _ _ _ _ _ Hw) as [_ Hb].
  destruct (Hb x Hx) as [E|?]; [|done]. by rewrite is_done_empty in E.
Qed.

Lemma walk_out_nodup names err done out :
  WithProcesses p names append_process [] = Some (err, done, out) ->
  NoDup (Name <$> out).
Proof.
  intros Hw%WithProcesses_walks.
  by destruct (proj1 (walks_grows p) _ _ _ _ _ Hw) as (_ & _ & ?).
Qed.

Lemma walk_out_marked names err done out c :
  WithProcesses p names append_process [] = Some (err, done, out) ->
  c ∈ out -> is_done done (Name c) = true.
Proof.
  intros Hw%WithProcesses_walks Hc.
  destruct (proj1 (walks_grows p) _ _ _ _ _ Hw) as (_ & Hf & _).
  by destruct (Hf c Hc).
Qed.

Lemma walk_out_good names err done out c :
  WithProcesses p names append_process [] = Some (err, done, out) ->
  c ∈ out ->
  good p c ∧ ∀ d, d ∈ GetDependencies c ->
                  declared p d ∧ (enabled p d -> is_done done d = true).
Proof.
  intros Hw%WithProcesses_walks Hc.
  destruct (proj1 (walks_visits p Hwf) _ _ _ _ _ Hw) as [Ha _]. auto.
Qed.

Lemma walk_marked_out names done out x :
  WithProcesses p names append_process [] = Some (None, done, out) ->
  is_done done x = true -> x ∈ Name <$> out.
Proof.
  intros Hw%WithProcesses_walks Hx.
  destruct (proj1 (walks_success p Hwf) _ _ _ _ _ Hw eq_refl)
    as (_ & _ & Hm).
  destruct (Hm x Hx) as [E|?]; [|done]. by rewrite is_done_empty in E.
Qed.

(** A walk that returns no error has visited exactly the processes that
    can be reached from its start names. *)
Lemma walk_out_reachable names done out x :
  WithProcesses p names append_process [] = Some (None, done, out) ->
  x ∈ Name <$> out <-> reachable p names x.
Proof.
  intros Hwalk. split.
  - intros (c & -> & Hc)%list_elem_of_fmap.
    eapply walk_marked_reachable; [done|]. by eapply walk_out_marked.
  - intros (r & Hr & Hen & Hrx). eapply walk_marked_out; [done|].
    assert (is_done done r = true) as Hdr.
    { pose proof Hwalk as Hw%WithProcesses_walks.
      destruct (proj1 (walks_success p Hwf) _ _ _ _ _ Hw eq_refl)
        as (_ & Hs & _). auto. }
    clear Hr Hen. induction Hrx as [|x y z [Hy Hey] _ IH]; [done|].
    apply IH.
    pose proof (walk_marked_out _ _ _ x Hwalk Hdr)
      as (c & -> & Hc)%list_elem_of_fmap.
    destruct (walk_out_good _ _ _ _ c Hwalk Hc) as [Hg Hd].
    rewrite (deps_of_config _ _ _ Hg) in Hy. by apply Hd.
Qed.

(** When the walk returns no error, and only then, the start names and
    the dependencies of every process within reach are declared. *)
Lemma walk_success_iff names err done out :
  WithProcesses p names append_process [] = Some (err, done, out) ->
  err = None <->
  Forall (declared p) names
  ∧ ∀ x d, reachable p names x -> d ∈ deps_of p x -> declared p d.
Proof.
  intros Hwalk. split.
  - intros ->. split.
    + pose proof Hwalk as Hw%WithProcesses_walks.
      by destruct (proj1 (walks_success p Hwf) _ _ _ _ _ Hw eq_refl)
        as (? & _ & _).
    + intros x d (c & -> & Hc)%(walk_out_reachable _ _ _ _ Hwalk)%list_elem_of_fmap
        Hd.
      destruct (walk_out_good _ _ _ _ c Hwalk Hc) as [Hg Hdeps].
      rewrite (deps_of_config _ _ _ Hg) in Hd. by apply Hdeps.
  - intros [Hn Hd]. destruct err as [e|]; [|done].
    pose proof Hwalk as Hw%WithProcesses_walks.
    destruct (proj1 (walks_failure p Hwf) _ _ _ _ _ Hw e eq_refl)
      as (n & -> & Hnd & [Hin | (x & Hx & _ & Hdx)]).
    + destruct Hnd. by apply (proj1 (Forall_forall _ _) Hn).
    + destruct Hnd. eapply Hd; [|done]. by eapply walk_marked_reachable.
Qed.

Lemma walk_error names e done out :
  WithProcesses p names append_process [] = Some (Some e, done, out) ->
  ∃ n, e = NoSuchProcess n ∧ ¬ declared p n
       ∧ (n ∈ names ∨ ∃ x, is_done done x = true ∧ n ∈ deps_of p x).
Proof.
  intros Hw%WithProcesses_walks.
  destruct (proj1 (walks_failure p Hwf) _ _ _ _ _ Hw e eq_refl)
    as (n & -> & Hnd & [Hin | (x & Hx & _ & Hdx)]); eauto 10.
Qed.

End WalkResults.

(** ** The order of the walk *)

Lemma ordered_split p (ok : string -> Prop) out l1 c l2 d :
  ordered p ok out -> out = l1 ++ c :: l2 ->
  d ∈ GetDependencies c -> enabled p d -> ok d ∨ d ∈ Name <$> l1.
Proof.
  intros Ho -> Hd He. apply ordered_app in Ho as [_ Ho]. simpl in Ho.
  destruct Ho as [Hc _]. by apply Hc.
Qed.

Lemma tc_rank {A} (R : relation A) (rank : A -> nat) :
  (∀ x y, R x y -> rank y < rank x) -> ∀ x, ¬ tc R x x.
Proof.
  intros Hr x Hx.
  assert (∀ a b, tc R a b -> rank b < rank a) as Htc.
  { induction 1 as [a b Hab|a b c Hab _ IH]; [auto|].
    apply Hr in Hab. lia. }
  specialize (Htc x x Hx). lia.
Qed.

Lemma acyclic_rank p (rank : string -> nat) :
  (∀ x y, edge p x y -> rank y < rank x) -> acyclic p.
Proof. intros Hr. unfold acyclic. by apply (tc_rank _ rank). Qed.

(** C2, as the specification states it, fails on a project in which [a]
    depends on the disabled [b], which depends on [c]: the graph has no
    cycle and the start name is declared, yet the walk from [a] visits [a]
    alone; [c], within reach and not disabled, is not visited, and [a] is
    visited though its dependency [b] never is. *)
Lemma walk_stops_at_disabled :
  (∀ x, ¬ tc (depends_on through_disabled) x x)
  ∧ Forall (declared through_disabled) ["a"]
  ∧ (∃ done, WithProcesses through_disabled ["a"] append_name []
             = Some (None, done, ["a"]))
  ∧ depends_on through_disabled "a" "b"
  ∧ within_reach through_disabled ["a"] "c"
  ∧ enabled through_disabled "c"
  ∧ ¬ visits_all_in_order through_disabled ["a"].
Proof.
  split_and!; [| | |eexists; split; [reflexivity|by left]| | |].
  - apply (tc_rank _ (fun x => if decide (x = "a") then 2
                               else if decide (x = "b") then 1 else 0)).
    intros x y (proc & Hg & Hy). simpl in Hg.
    repeat case_decide; simplify_eq; simpl in Hy; set_solver.
  - repeat constructor. by eexists.
  - eexists. vm_compute. reflexivity.
  - exists "a". split_and!; [by left|by eexists|].
    apply (rtc_l _ _ "b"); [eexists; split; [reflexivity|by left]|].
    apply rtc_once. eexists; split; [reflexivity|by left].
  - by eexists.
  - intros (err & done & out & Hw & _ & Hr & _).
    assert (out = [set_Name "a" (process_decl false ["b"])]) as ->.
    { vm_compute in Hw. by injection Hw as _ _ <-. }
    assert ("c" ∈ Name <$> [set_Name "a" (process_decl false ["b"])]) as Hc.
    { apply Hr; [|by eexists].
      exists "a". split_and!; [by left|by eexists|].
      apply (rtc_l _ _ "b"); [eexists; split; [reflexivity|by left]|].
      apply rtc_once. eexists; split; [reflexivity|by left]. }
    simpl in Hc. set_solver.
Qed.

(** C2 (amended): on a project without a cycle among the processes that are
    not disabled, with the start names and the dependencies of every
    process within reach declared, the walk returns no error and visits
    once each process that can be reached from the start names through
    processes that are not disabled, and no other; each is visited after
    all its dependencies that are not disabled; no disabled process is
    visited.  [out] is the sequence of the visits: the run order of
    [Run], the names of [GetDependenciesOrderNames], and the calls of any
    visitor that returns no error. *)
Theorem walk_in_dependency_order p names :
  map_wf (Processes p) ->
  acyclic p ->
  Forall (declared p) names ->
  (∀ x d, reachable p names x -> d ∈ deps_of p x -> declared p d) ->
  ∃ done out,
    WithProcesses p names append_process [] = Some (None, done, out)
    ∧ WithProcesses p names append_name [] = Some (None, done, Name <$> out)
    ∧ (∀ St (fn : ProcessFunc St) st,
         (∀ c s, (fn c s).2 = None) ->
         WithProcesses p names fn st
         = Some (None, done, foldl (fun s c => (fn c s).1) st out))
    ∧ NoDup (Name <$> out)
    ∧ (∀ x, x ∈ Name <$> out <-> reachable p names x)
    ∧ (∀ l1 c l2 d, out = l1 ++ c :: l2 -> d ∈ GetDependencies c ->
                    enabled p d -> d ∈ Name <$> l1)
    ∧ (∀ c, c ∈ out -> Disabled c = false).
Proof.
  intros Hwf Hacyc Hnames Hdeps.
  destruct (WithProcesses_total p append_process names [])
    as [[[err dn] out] Hw].
  assert (err = None) as ->.
  { by apply (walk_success_iff p Hwf _ _ _ _ Hw). }
  exists dn, out. split_and!.
  - done.
  - by apply WithProcesses_names.
  - intros St fn st Hfn. by apply WithProcesses_visitor.
  - by eapply walk_out_nodup.
  - intros x. by eapply walk_out_reachable.
  - intros l1 c l2 d Hout Hd He.
    pose proof Hw as Hrel%WithProcesses_walks.
    pose proof (proj1 (walks_ordered p Hwf Hacyc) _ _ _ _ _ Hrel
                  (fun _ => False)) as Hord.
    destruct (ordered_split p _ out l1 c l2 d (Hord (fun _ _ H => False_ind _ H))
                Hout Hd He)
      as [[E _]|?]; [|done].
    by rewrite is_done_empty in E.
  - intros c Hc. destruct (walk_out_good p Hwf _ _ _ _ c Hw Hc) as [Hg _].
    by apply config_of_Disabled in Hg.
Qed.

Lemma web_stack_wf : map_wf (Processes web_stack).
Proof. unfold map_wf, map_keys. simpl. by apply (bool_decide_unpack _). Defined.

Lemma web_stack_acyclic : acyclic web_stack.
Proof.
  apply (acyclic_rank _ (fun x => if decide (x = "web") then 2
                                  else if decide (x = "api") then 1 else 0)).
  intros x y [Hy _]. unfold deps_of, config_of in Hy. simpl in Hy.
  repeat case_decide; simplify_eq; simpl in Hy; set_solver.
Defined.

Lemma web_stack_declared x d :
  d ∈ deps_of web_stack x -> declared web_stack d.
Proof.
  unfold deps_of, config_of, declared. simpl.
  repeat case_decide; simplify_eq; simpl; set_solver by eauto.
Defined.

Lemma walk_in_dependency_order_witness :
  ∃ done out,
    WithProcesses web_stack [] append_process [] = Some (None, done, out)
    ∧ WithProcesses web_stack [] append_name []
      = Some (None, done, Name <$> out)
    ∧ (∀ St (fn : ProcessFunc St) st,
         (∀ c s, (fn c s).2 = None) ->
         WithProcesses web_stack [] fn st
         = Some (None, done, foldl (fun s c => (fn c s).1) st out))
    ∧ NoDup (Name <$> out)
    ∧ (∀ x, x ∈ Name <$> out <-> reachable web_stack [] x)
    ∧ (∀ l1 c l2 d, out = l1 ++ c :: l2 -> d ∈ GetDependencies c ->
                    enabled web_stack d -> d ∈ Name <$> l1)
    ∧ (∀ c, c ∈ out -> Disabled c = false).
Proof.
  apply walk_in_dependency_order.
  - exact web_stack_wf.
  - exact web_stack_acyclic.
  - constructor.
  - intros x d _. apply web_stack_declared.
Defined.

(** ** Cycles *)

(** C3, as the specification states it, fails: [a] and [b], declared and
    not disabled, lie on a cycle of [DependsOn], and [withProcesses] comes
    back from a recursion of depth three with both visited. *)
Lemma walk_of_cycle_returns :
  tc (edge two_cycle) "a" "a"
  ∧ (∃ done, withProcesses two_cycle 3 [] append_name ∅ []
             = Some (None, done, ["b"; "a"]))
  ∧ ¬ (∀ fuel, withProcesses two_cycle fuel [] append_name ∅ [] = None).
Proof.
  split_and!.
  - apply (tc_l _ _ "b"); [|apply tc_once]; (split; [by left|by eexists]).
  - eexists. vm_compute. reflexivity.
  - intros H. specialize (H 3). vm_compute in H. discriminate.
Qed.

(** C3 (amended): [withProcesses] returns on every input, with or without
    a cycle, whatever the visitor and the [done] map it starts from: it
    marks a process before it follows its dependencies, so the recursion
    is never deeper than the number of declared processes plus one, and
    more depth gives the same result. *)
Theorem withProcesses_returns {St} p (fn : ProcessFunc St) names done st :
  ∃ r, ∀ fuel, length (Processes p) < fuel ->
               withProcesses p fuel names fn done st = Some r.
Proof.
  destruct (withProcesses_enough p fn (S (length (Processes p))) names done st)
    as [r Hr].
  { pose proof (undone_bound p done). lia. }
  exists r. intros fuel Hf. eapply withProcesses_more; [done|lia].
Qed.

Lemma withProcesses_returns_witness :
  ∃ r, ∀ fuel, 2 < fuel ->
               withProcesses two_cycle fuel [] append_name ∅ [] = Some r.
Proof. exact (withProcesses_returns two_cycle append_name [] ∅ []). Defined.

(** ** Undeclared names *)

(** C4: a walk returns the error [NoSuchProcess] of an undeclared name
    when some process within reach of its start names (through processes
    that are not disabled) has a name among its dependencies that is not
    declared; that name is one of the start names or a dependency of a
    process within reach.  A walk returns no error when its start names
    and the dependencies of the processes within reach are declared,
    disabled or not.  [GetDependenciesOrderNames] returns what the walk
    from the empty list returns. *)
Theorem walk_missing_dependency p names :
  map_wf (Processes p) ->
  ∃ err done out,
    WithProcesses p names append_process [] = Some (err, done, out)
    ∧ WithProcesses p names append_name [] = Some (err, done, Name <$> out)
    ∧ (names = [] ->
       GetDependenciesOrderNames p = Some (Name <$> out, err))
    ∧ ((∃ x d, reachable p names x ∧ d ∈ deps_of p x ∧ ¬ declared p d) ->
       ∃ n, err = Some (NoSuchProcess n) ∧ ¬ declared p n
            ∧ (n ∈ names ∨ ∃ x, reachable p names x ∧ n ∈ deps_of p x))
    ∧ (Forall (declared p) names ->
       (∀ x d, reachable p names x -> d ∈ deps_of p x -> declared p d) ->
       err = None).
Proof.
  intros Hwf.
  destruct (WithProcesses_total p append_process names [])
    as [[[err dn] out] Hw].
  pose proof (WithProcesses_names p _ _ _ _ Hw) as Hn.
  exists err, dn, out. split_and!; [done|done| | |].
  - intros ->. unfold GetDependenciesOrderNames. by rewrite Hn.
  - intros (x & d & Hx & Hd & Hnd). destruct err as [e|].
    + destruct (walk_error p Hwf _ _ _ _ Hw)
        as (n & -> & Hnn & [Hin | (y & Hy & Hdy)]).
      * exists n. split_and!; [done|done|by left].
      * exists n. split_and!; [done|done|]. right. exists y.
        split; [|done]. by eapply walk_marked_reachable.
    + destruct Hnd.
      by eapply (proj1 (walk_success_iff p Hwf _ _ _ _ Hw) eq_refl).
  - intros Hnames Hdeps. by apply (walk_success_iff p Hwf _ _ _ _ Hw).
Qed.

Example walk_missing_queue :
  ∃ done, WithProcesses web_stack_missing ["web"] append_name []
          = Some (Some (NoSuchProcess "queue"), done, []).
Proof. eexists. by vm_compute. Qed.

Example walk_disabled_cache :
  GetDependenciesOrderNames web_stack = Some (["db"; "api"; "web"], None).
Proof. by vm_compute. Qed.

Lemma walk_missing_dependency_witness :
  ∃ err done out,
    WithProcesses web_stack_missing [] append_process []
      = Some (err, done, out)
    ∧ WithProcesses web_stack_missing [] append_name []
      = Some (err, done, Name <$> out)
    ∧ (@nil string = [] ->
       GetDependenciesOrderNames web_stack_missing
       = Some (Name <$> out, err))
    ∧ ((∃ x d, reachable web_stack_missing [] x
               ∧ d ∈ deps_of web_stack_missing x
               ∧ ¬ declared web_stack_missing d) ->
       ∃ n, err = Some (NoSuchProcess n) ∧ ¬ declared web_stack_missing n
            ∧ (n ∈ []
               ∨ ∃ x, reachable web_stack_missing [] x
                      ∧ n ∈ deps_of web_stack_missing x))
    ∧ (Forall (declared web_stack_missing) [] ->
       (∀ x d, reachable web_stack_missing [] x ->
               d ∈ deps_of web_stack_missing x ->
               declared web_stack_missing d) ->
       err = None).
Proof.
  apply walk_missing_dependency.
  unfold map_wf, map_keys. simpl. by apply (bool_decide_unpack _).
Defined.

(** On that project [web] is within reach of the empty starting list and
    has the undeclared [queue] among its dependencies. *)
Example web_reaches_queue :
  ∃ x d, reachable web_stack_missing [] x
         ∧ d ∈ deps_of web_stack_missing x
         ∧ ¬ declared web_stack_missing d.
Proof.
  exists "web", "queue". split_and!.
  - exists "web". split_and!; [by vm_compute; left|by eexists|done].
  - vm_compute. set_solver.
  - by intros [c Hc].
Qed.

Example walk_missing_queue_all :
  GetDependenciesOrderNames web_stack_missing
  = Some ([], Some (NoSuchProcess "queue")).
Proof. by vm_compute. Qed.

(** ** Two runs on one project *)

Section SameProject.

Variables p1 p2 : Project.
Hypothesis Hsame : same_project p1 p2.

Lemma same_project_sym : same_project p2 p1.
Proof.
  destruct Hsame as (Hwf1 & Hwf2 & Hk). split_and!; [done|done|].
  intros k. specialize (Hk k).
  destruct (map_get (Processes p1) k) as [c1|],
           (map_get (Processes p2) k) as [c2|]; try done.
  destruct Hk as (? & ? & ? & ?). by split_and!.
Qed.

Lemma same_declared k : declared p1 k -> declared p2 k.
Proof.
  destruct Hsame as (_ & _ & Hk). specialize (Hk k). unfold declared.
  intros [c1 E]. rewrite E in Hk.
  destruct (map_get (Processes p2) k); [by eexists|done].
Qed.

Lemma same_config_of k c1 :
  config_of p1 k = Some c1 ->
  ∃ c2, config_of p2 k = Some c2 ∧ DependsOn c1 ≡ₚ DependsOn c2.
Proof.
  destruct Hsame as (_ & _ & Hk). specialize (Hk k). unfold config_of.
  destruct (map_get (Processes p1) k) as [proc1|]; simpl; [|done].
  destruct (map_get (Processes p2) k) as [proc2|]; simpl; [|done].
  destruct Hk as (_ & <- & _ & Hd).
  destruct (Disabled proc1); [done|]. intros [= <-]. by eexists.
Qed.

Lemma same_enabled k : enabled p1 k -> enabled p2 k.
Proof. intros [c1 (c2 & ? & _)%same_config_of]. by exists c2. Qed.

Lemma same_deps_of k d : d ∈ deps_of p1 k -> d ∈ deps_of p2 k.
Proof.
  unfold deps_of. destruct (config_of p1 k) as [c1|] eqn:E; simpl.
  - apply same_config_of in E as (c2 & -> & Hd). simpl.
    unfold GetDependencies, map_keys. by rewrite Hd.
  - by intros ?%elem_of_nil.
Qed.

Lemma same_edge x y : edge p1 x y -> edge p2 x y.
Proof. intros [? ?]. split; [by apply same_deps_of|by apply same_enabled]. Qed.

Lemma same_start_names names k :
  k ∈ start_names p1 names -> k ∈ start_names p2 names.
Proof.
  unfold start_names. case_decide; [|done].
  destruct Hsame as (_ & _ & Hk). specialize (Hk k).
  intros Hin. destruct (map_get (Processes p2) k) eqn:E2.
  - apply map_get_Some_elem in E2. apply list_elem_of_fmap. by eexists (_, _).
  - destruct (map_get (Processes p1) k) eqn:E1; [done|].
    by apply map_get_None in E1.
Qed.

Lemma same_reachable names x : reachable p1 names x -> reachable p2 names x.
Proof.
  intros (r & Hr & He & Hx). exists r.
  split_and!; [by apply same_start_names|by apply same_enabled|].
  eapply rtc_subrel; [|done]. apply same_edge.
Qed.

End SameProject.

(** C8, as the specification states it, fails: on one project of two
    independent processes and with the empty starting list, two runs whose
    [range] over [Processes] differs return different sequences. *)
Lemma walk_order_differs :
  same_project run_ab run_ba
  ∧ GetDependenciesOrderNames run_ab = Some (["a"; "b"], None)
  ∧ GetDependenciesOrderNames run_ba = Some (["b"; "a"], None)
  ∧ GetDependenciesOrderNames run_ab ≠ GetDependenciesOrderNames run_ba.
Proof.
  split_and!; [|by vm_compute|by vm_compute|by vm_compute].
  split_and!.
  - unfold map_wf, map_keys. simpl. by apply (bool_decide_unpack _).
  - unfold map_wf, map_keys. simpl. by apply (bool_decide_unpack _).
  - intros k. simpl. repeat case_decide; simplify_eq; done.
Qed.

(** C8 (amended): two runs on the same project with the same starting
    list, in whatever order they range over the maps, both return, with
    an error or both without; neither sequence holds a process twice, and
    when the runs return no error they have visited the same processes,
    each exactly once: the two sequences are permutations of each
    other. *)
Theorem walk_same_processes p1 p2 names :
  same_project p1 p2 ->
  ∃ err1 done1 order1 err2 done2 order2,
    WithProcesses p1 names append_name [] = Some (err1, done1, order1)
    ∧ WithProcesses p2 names append_name [] = Some (err2, done2, order2)
    ∧ NoDup order1 ∧ NoDup order2
    ∧ (err1 = None <-> err2 = None)
    ∧ (err1 = None -> order1 ≡ₚ order2).
Proof.
  intros Hsame. pose proof (same_project_sym _ _ Hsame) as Hsame'.
  pose proof Hsame as (Hwf1 & Hwf2 & _).
  destruct (WithProcesses_total p1 append_process names [])
    as [[[err1 dn1] out1] Hw1].
  destruct (WithProcesses_total p2 append_process names [])
    as [[[err2 dn2] out2] Hw2].
  exists err1, dn1, (Name <$> out1), err2, dn2, (Name <$> out2).
  assert (err1 = None <-> err2 = None) as Herr.
  { rewrite (walk_success_iff p1 Hwf1 _ _ _ _ Hw1).
    rewrite (walk_success_iff p2 Hwf2 _ _ _ _ Hw2).
    split; intros [Hn Hd]; split.
    - eapply Forall_impl; [done|]. by apply same_declared.
    - intros x d Hx Hdx. eapply same_declared; [done|].
      eapply Hd; [by eapply same_reachable|by eapply same_deps_of].
    - eapply Forall_impl; [done|]. by apply same_declared.
    - intros x d Hx Hdx. eapply same_declared; [done|].
      eapply Hd; [by eapply same_reachable|by eapply same_deps_of]. }
  split_and!; [by apply WithProcesses_names|by apply WithProcesses_names
              |by eapply walk_out_nodup|by eapply walk_out_nodup|done|].
  intros He1. pose proof (proj1 Herr He1) as He2. subst err1 err2.
  apply NoDup_Permutation.
  - by eapply walk_out_nodup.
  - by eapply walk_out_nodup.
  - intros x. rewrite (walk_out_reachable p1 Hwf1 _ _ _ x Hw1).
    rewrite (walk_out_reachable p2 Hwf2 _ _ _ x Hw2).
    split; by apply same_reachable.
Qed.

Lemma run_one_two : same_project run_one run_two.
Proof.
  split_and!.
  - unfold map_wf, map_keys. simpl. by apply (bool_decide_unpack _).
  - unfold map_wf, map_keys. simpl. by apply (bool_decide_unpack _).
  - intros k. simpl. repeat case_decide; simplify_eq; try done.
    split_and!; try done. apply perm_swap.
Defined.

Lemma walk_same_processes_witness :
  ∃ err1 done1 order1 err2 done2 order2,
    WithProcesses run_one [] append_name [] = Some (err1, done1, order1)
    ∧ WithProcesses run_two [] append_name [] = Some (err2, done2, order2)
    ∧ NoDup order1 ∧ NoDup order2
    ∧ (err1 = None <-> err2 = None)
    ∧ (err1 = None -> order1 ≡ₚ order2).
Proof. apply walk_same_processes. exact run_one_two. Defined.

Example run_one_order :
  GetDependenciesOrderNames run_one = Some (["api"; "db"; "web"], None).
Proof. by vm_compute. Qed.

Example run_two_order :
  GetDependenciesOrderNames run_two = Some (["db"; "api"; "web"], None).
Proof. by vm_compute. Qed.

(** ** The task of a process *)

Lemma bind_run {A B} (m : M A) (f : A -> M B) (p : Project) :
  (m ≫= f) p =
  let '(a, p1, evs1) := m p in
  let '(b, p2, evs2) := f a p1 in
  (b, p2, evs1 ++ evs2).
Proof. reflexivity. Qed.

Lemma ret_run {A} (a : A) (p : Project) : (mret a : M A) p = (a, p, []).
Proof. reflexivity. Qed.

Section TaskFacts.

Variable Process_WaitForCompletion : Process -> string -> Project -> Z * Project.
Variable Process_Run : Process -> Project -> Project.
Variable Process_WontRun : Process -> Project -> Project.

Abbreviation waitIfNeeded_loop' :=
  (waitIfNeeded_loop Process_WaitForCompletion).
Abbreviation waitIfNeeded' := (waitIfNeeded Process_WaitForCompletion).
Abbreviation task' :=
  (task Process_WaitForCompletion Process_Run Process_WontRun).

(** One turn of the loop of [waitIfNeeded]. *)
Lemma waitIfNeeded_loop_cons process k dep deps p :
  waitIfNeeded_loop' process ((k, dep) :: deps) p =
  match runningProcesses p !! k with
  | None => waitIfNeeded_loop' process deps p
  | Some runningProc =>
      let '(exitCode, p1) :=
        Process_WaitForCompletion runningProc (Name process) p in
      let ev := EvWaitForCompletion k runningProc (Name process) exitCode in
      match Condition dep with
      | ProcessConditionCompletedSuccessfully =>
          if decide (exitCode ≠ 0%Z) then
            (Some (UnmetDependency (Name process) k exitCode), p1, [ev])
          else
            let '(err, p2, evs) := waitIfNeeded_loop' process deps p1 in
            (err, p2, ev :: evs)
      | ProcessConditionCompleted =>
          let '(err, p2, evs) := waitIfNeeded_loop' process deps p1 in
          (err, p2, ev :: evs)
      end
  end.
Proof.
  simpl. rewrite bind_run. unfold getRunningProcess at 1.
  rewrite bind_run. unfold get_project at 1. rewrite ret_run. simpl.
  destruct (runningProcesses p !! k) as [runningProc|].
  - destruct (Condition dep); rewrite bind_run;
      unfold WaitForCompletion at 1;
      destruct (Process_WaitForCompletion runningProc (Name process) p)
        as [exitCode p1].
    + by destruct (waitIfNeeded_loop _ process deps p1) as [[err p2] evs].
    + case_decide; [done|].
      by destruct (waitIfNeeded_loop _ process deps p1) as [[err p2] evs].
  - by destruct (waitIfNeeded_loop _ process deps p) as [[err p2] evs].
Qed.

(** The events of [waitIfNeeded] are waits for dependencies; it returns
    an error when, and only when, one of them on condition
    [CompletedSuccessfully] returned an exit code that is not zero. *)
Lemma waitIfNeeded_loop_spec process deps :
  NoDup (map_keys deps) ->
  ∀ p err p' evs,
    waitIfNeeded_loop' process deps p = (err, p', evs) ->
    Forall (fun ev => ∃ dep runningProc exitCode,
              ev = EvWaitForCompletion dep runningProc (Name process) exitCode
              ∧ dep ∈ map_keys deps) evs
    ∧ (∀ e, err = Some e ->
         ∃ dep d runningProc exitCode,
           (dep, d) ∈ deps
           ∧ Condition d = ProcessConditionCompletedSuccessfully
           ∧ EvWaitForCompletion dep runningProc (Name process) exitCode ∈ evs
           ∧ exitCode ≠ 0%Z
           ∧ e = UnmetDependency (Name process) dep exitCode)
    ∧ (err = None ->
         ∀ dep d runningProc exitCode,
           (dep, d) ∈ deps ->
           Condition d = ProcessConditionCompletedSuccessfully ->
           EvWaitForCompletion dep runningProc (Name process) exitCode ∈ evs ->
           exitCode = 0%Z).
Proof.
  induction deps as [|[k dep] deps IH]; intros Hnd p err p' evs.
  { intros [= <- <- <-]. split_and!; [constructor|done|].
    by intros _ ???? ?%elem_of_nil. }
  unfold map_keys in Hnd. rewrite fmap_cons in Hnd.
  apply NoDup_cons in Hnd as [Hk Hnd]. simpl in Hk.
  specialize (IH Hnd).
  assert (∀ evs',
    Forall (fun ev => ∃ dep runningProc exitCode,
              ev = EvWaitForCompletion dep runningProc (Name process) exitCode
              ∧ dep ∈ map_keys deps) evs' ->
    Forall (fun ev => ∃ dep0 runningProc exitCode,
              ev = EvWaitForCompletion dep0 runningProc (Name process) exitCode
              ∧ dep0 ∈ map_keys ((k, dep) :: deps)) evs') as Hweak.
  { intros evs' Hall. eapply Forall_impl; [exact Hall|].
    intros ev (d0 & h & c & -> & Hin).
    exists d0, h, c. split; [done|]. by right. }
  assert (∀ evs' d0 d h c,
    Forall (fun ev => ∃ dep runningProc exitCode,
              ev = EvWaitForCompletion dep runningProc (Name process) exitCode
              ∧ dep ∈ map_keys deps) evs' ->
    (d0, d) ∈ (k, dep) :: deps ->
    EvWaitForCompletion d0 h (Name process) c ∈ evs' ->
    (d0, d) ∈ deps) as Hrest.
  { intros evs' d0 d h c Hall [[= -> ->] | Hin]%elem_of_cons Hev; [|done].
    destruct Hk.
    destruct (proj1 (Forall_forall _ _) Hall _ Hev)
      as (? & ? & ? & [= <- _ _] & ?). done. }
  assert (∀ d, (k, d) ∈ (k, dep) :: deps -> d = dep) as Hhead.
  { intros d [[= ->] | Hin]%elem_of_cons; [done|].
    destruct Hk. apply list_elem_of_fmap. by exists (k, d). }
  rewrite waitIfNeeded_loop_cons.
  destruct (runningProcesses p !! k) as [runningProc|].
  - destruct (Process_WaitForCompletion runningProc (Name process) p)
      as [exitCode p1].
    destruct (Condition dep) eqn:Hcond.
    + destruct (waitIfNeeded_loop' process deps p1) as [[err1 p2] evs1] eqn:Hl.
      destruct (IH _ _ _ _ Hl) as (H1 & H2 & H3).
      intros [= <- <- <-]. split_and!.
      * constructor; [|auto]. eexists _, _, _. split; [done|by left].
      * intros e He.
        destruct (H2 e He) as (d0 & d & h & c & ? & ? & ? & ? & ?).
        exists d0, d, h, c. split_and!; try done; by right.
      * intros He d0 d h c Hin Hd [[= -> -> ->] | Hev]%elem_of_cons.
        -- apply Hhead in Hin. congruence.
        -- eapply H3; eauto.
    + case_decide as Hc.
      * intros [= <- <- <-]. split_and!.
        -- constructor; [|constructor].
           eexists _, _, _. split; [done|by left].
        -- intros e [= <-]. exists k, dep, runningProc, exitCode.
           split_and!; try done; by left.
        -- done.
      * destruct (waitIfNeeded_loop' process deps p1)
          as [[err1 p2] evs1] eqn:Hl.
        destruct (IH _ _ _ _ Hl) as (H1 & H2 & H3).
        intros [= <- <- <-]. split_and!.
        -- constructor; [|auto]. eexists _, _, _. split; [done|by left].
        -- intros e He.
           destruct (H2 e He) as (d0 & d & h & c & ? & ? & ? & ? & ?).
           exists d0, d, h, c. split_and!; try done; by right.
        -- intros He d0 d h c Hin Hd [[= -> -> ->] | Hev]%elem_of_cons.
           ++ destruct (decide (exitCode = 0%Z)); [done|by destruct Hc].
           ++ eapply H3; eauto.
  - intros Hl. destruct (IH _ _ _ _ Hl) as (H1 & H2 & H3). split_and!.
    + auto.
    + intros e He.
      destruct (H2 e He) as (d0 & d & h & c & ? & ? & ? & ? & ?).
      exists d0, d, h, c. split_and!; try done; by right.
    + intros He d0 d h c Hin Hd Hev. eapply H3; eauto.
Qed.

Lemma launches_waits process evs :
  Forall (fun ev => ∃ dep runningProc exitCode,
            ev = EvWaitForCompletion dep runningProc (Name process) exitCode
            ∧ dep ∈ map_keys (DependsOn process)) evs ->
  launches evs = [].
Proof.
  induction 1 as [|ev evs (? & ? & ? & -> & _) _ IH]; [done|].
  unfold launches in *. by rewrite filter_cons_False.
Qed.

(** The events of a task: the waits of [waitIfNeeded], then one call of
    [WontRun] or of [Run]. *)
Lemma task_events process p :
  (task' process p).2 =
  (waitIfNeeded' (procConf process) p).2
  ++ [match (waitIfNeeded' (procConf process) p).1.1 with
      | Some _ => EvWontRun process
      | None => EvRun process
      end].
Proof.
  unfold task. rewrite bind_run.
  destruct (waitIfNeeded' (procConf process) p) as [[[e|] p1] evs]; simpl;
    by rewrite ?app_nil_r.
Qed.

(** The deferred [removeRunningProcess] is the last step of a task. *)
Lemma task_removes process p :
  runningProcesses (task' process p).1.2 !! GetName process = None.
Proof.
  unfold task. rewrite bind_run.
  destruct (waitIfNeeded' (procConf process) p) as [[[e|] p1] evs]; simpl;
    apply lookup_delete_eq.
Qed.

(** When a wait changes nothing in the project and its exit code is a
    matter of the handle alone, [waitIfNeeded] returns an error exactly
    when a dependency on condition [CompletedSuccessfully] is in the
    registry with an exit code that is not zero. *)
Lemma waitIfNeeded_loop_static (exit : Process -> Z) process deps p :
  (∀ h w q, Process_WaitForCompletion h w q = (exit h, q)) ->
  ∃ err evs,
    waitIfNeeded_loop' process deps p = (err, p, evs)
    ∧ (is_Some err <->
       ∃ dep d h,
         (dep, d) ∈ deps
         ∧ Condition d = ProcessConditionCompletedSuccessfully
         ∧ runningProcesses p !! dep = Some h
         ∧ exit h ≠ 0%Z).
Proof.
  intros Hpure. induction deps as [|[k dep] deps (err & evs & IH & Hiff)].
  { exists None, []. split; [done|]. split; [by intros [? ?]|].
    by intros (? & ? & ? & ?%elem_of_nil & _). }
  rewrite waitIfNeeded_loop_cons.
  assert ((∃ dep0 d h, (dep0, d) ∈ deps
             ∧ Condition d = ProcessConditionCompletedSuccessfully
             ∧ runningProcesses p !! dep0 = Some h ∧ exit h ≠ 0%Z) ->
          ∃ dep0 d h, (dep0, d) ∈ (k, dep) :: deps
             ∧ Condition d = ProcessConditionCompletedSuccessfully
             ∧ runningProcesses p !! dep0 = Some h ∧ exit h ≠ 0%Z) as Hweak.
  { intros (d0 & d & h & ? & ? & ? & ?). exists d0, d, h.
    split_and!; try done. by right. }
  destruct (runningProcesses p !! k) as [runningProc|] eqn:Hk.
  - rewrite Hpure. simpl. rewrite IH. destruct (Condition dep) eqn:Hcond.
    + eexists _, _. split; [done|]. rewrite Hiff. split; [done|].
      intros (d0 & d & h & [[= -> ->] | Hin]%elem_of_cons & Hd & Hr & He).
      * congruence.
      * eauto 10.
    + case_decide as Hc.
      * eexists _, _. split; [done|]. split; [|by eexists].
        intros _. exists k, dep, runningProc. split_and!; try done. by left.
      * eexists _, _. split; [done|]. rewrite Hiff. split; [done|].
        intros (d0 & d & h & [[= -> ->] | Hin]%elem_of_cons & Hd & Hr & He).
        -- rewrite Hk in Hr. injection Hr as <-. by destruct He.
        -- eauto 10.
  - rewrite IH. exists err, evs. split; [done|]. rewrite Hiff. split; [done|].
    intros (d0 & d & h & [[= -> ->] | Hin]%elem_of_cons & Hd & Hr & He).
    + congruence.
    + eauto 10.
Qed.

(** C1: a task calls [WontRun], and not [Run], when the wait for a
    dependency on condition [CompletedSuccessfully] that it found live
    returned an exit code that is not zero; in every other case it calls
    [Run], and not [WontRun].  It makes one of the two calls, once.  When
    the waits leave the registry as it was, the case of [WontRun] is the
    one in which the registry holds such a dependency. *)
Theorem task_runs_unless_unmet process p :
  map_wf (DependsOn (procConf process)) ->
  (unmet (procConf process) (task' process p).2 ->
   launches (task' process p).2 = [EvWontRun process])
  ∧ (¬ unmet (procConf process) (task' process p).2 ->
     launches (task' process p).2 = [EvRun process])
  ∧ (∀ exit : Process -> Z,
       (∀ h w q, Process_WaitForCompletion h w q = (exit h, q)) ->
       launches (task' process p).2 = [EvWontRun process] <->
       ∃ dep d h,
         (dep, d) ∈ DependsOn (procConf process)
         ∧ Condition d = ProcessConditionCompletedSuccessfully
         ∧ runningProcesses p !! dep = Some h
         ∧ exit h ≠ 0%Z).
Proof.
  intros Hwf. rewrite task_events.
  destruct (waitIfNeeded' (procConf process) p) as [[err p1] evs] eqn:Hw.
  destruct (waitIfNeeded_loop_spec _ _ Hwf _ _ _ _ Hw) as (H1 & H2 & H3).
  simpl. unfold launches. rewrite filter_app.
  fold (launches evs). rewrite (launches_waits _ _ H1). simpl.
  split_and!.
  - destruct err as [e|]; [done|].
    intros (d0 & d & h & c & Hin & Hd & Hev & Hc).
    destruct Hc. eapply (H3 eq_refl); [done|done|].
    apply elem_of_app in Hev as [Hev | Hev%list_elem_of_singleton];
      [done|discriminate].
  - destruct err as [e|]; [|done]. intros Hn. destruct Hn.
    destruct (H2 e eq_refl) as (d0 & d & h & c & ? & ? & ? & ? & _).
    exists d0, d, h, c. split_and!; try done. apply elem_of_app. by left.
  - intros exit Hpure.
    destruct (waitIfNeeded_loop_static exit (procConf process)
                (DependsOn (procConf process)) p Hpure)
      as (err' & evs' & Hw' & <-).
    unfold waitIfNeeded in Hw. rewrite Hw in Hw'. injection Hw' as <- _ _.
    destruct err as [e|]; (split; [|done]); [by eexists|].
    intros [= ?].
Qed.

(** C7: when none of the dependencies of a process is in the running
    registry, whatever their conditions, [waitIfNeeded] returns no error,
    having waited for nothing, and the task calls [Run]. *)
Theorem absent_dependencies_are_skipped process p :
  (∀ k, k ∈ map_keys (DependsOn (procConf process)) ->
        runningProcesses p !! k = None) ->
  waitIfNeeded' (procConf process) p = (None, p, [])
  ∧ (task' process p).2 = [EvRun process].
Proof.
  intros Habsent.
  assert (waitIfNeeded' (procConf process) p = (None, p, [])) as Hw.
  { unfold waitIfNeeded. revert Habsent.
    induction (DependsOn (procConf process)) as [|[k dep] deps IH];
      intros Habsent; [done|].
    rewrite waitIfNeeded_loop_cons, Habsent by (by left).
    apply IH. intros k' Hk'. apply Habsent. by right. }
  split; [done|]. by rewrite task_events, Hw.
Qed.

End TaskFacts.

Lemma task_runs_unless_unmet_witness :
  let web := handle_of "web" web_needs_db in
  let evs := (task (exits_with 3) no_effect no_effect web db_running).2 in
  (unmet (procConf web) evs -> launches evs = [EvWontRun web])
  ∧ (¬ unmet (procConf web) evs -> launches evs = [EvRun web])
  ∧ (∀ exit : Process -> Z,
       (∀ h w q, exits_with 3 h w q = (exit h, q)) ->
       launches evs = [EvWontRun web] <->
       ∃ dep d h,
         (dep, d) ∈ DependsOn (procConf web)
         ∧ Condition d = ProcessConditionCompletedSuccessfully
         ∧ runningProcesses db_running !! dep = Some h
         ∧ exit h ≠ 0%Z).
Proof.
  apply (task_runs_unless_unmet (exits_with 3) no_effect no_effect
           (handle_of "web" web_needs_db) db_running).
  unfold map_wf, map_keys. simpl. by apply (bool_decide_unpack _).
Defined.

Example task_wont_run :
  let web := handle_of "web" web_needs_db in
  (task (exits_with 3) no_effect no_effect web db_running).2
  = [EvWaitForCompletion "db" (handle_of "db" (process_decl false []))
       "web" 3;
     EvWontRun web].
Proof. by vm_compute. Qed.

Example task_runs :
  let web := handle_of "web" web_needs_db in
  (task (exits_with 0) no_effect no_effect web db_running).2
  = [EvWaitForCompletion "db" (handle_of "db" (process_decl false []))
       "web" 0;
     EvRun web].
Proof. by vm_compute. Qed.

Lemma absent_dependencies_are_skipped_witness :
  let web := handle_of "web" web_needs_db in
  let p := loaded [("web", web_needs_db); ("db", process_decl false [])] in
  waitIfNeeded (exits_with 3) (procConf web) p = (None, p, [])
  ∧ (task (exits_with 3) no_effect no_effect web p).2 = [EvRun web].
Proof.
  apply (absent_dependencies_are_skipped (exits_with 3) no_effect no_effect
           (handle_of "web" web_needs_db)
           (loaded [("web", web_needs_db); ("db", process_decl false [])])).
  intros k _. apply lookup_empty.
Defined.

(** ** Start and stop *)

Section ControlFacts.

Variable isStringDefined : string -> bool.
Variable Process_WaitForCompletion : Process -> string -> Project -> Z * Project.
Variable Process_Run : Process -> Project -> Project.
Variable Process_WontRun : Process -> Project -> Project.
Variable Process_stop : Process -> Project -> Project.

(** [runProcess] makes the handle with attempt counter 1, puts it in the
    registry under the name of the process, counts it in [wg] and spawns
    its task. *)
Lemma runProcess_run proc p :
  ∃ process p',
    runProcess isStringDefined proc p = (tt, p', [EvGo process])
    ∧ procConf process = proc
    ∧ attempt process = 1%Z
    ∧ Processes p' = Processes p
    ∧ runningProcesses p' = <[Name proc := process]> (runningProcesses p)
    ∧ wg p' = (wg p + 1)%Z.
Proof. eexists _, _. split; [reflexivity|]. by split_and!. Qed.

(** C5: [StartProcess] returns [AlreadyRunning] when, and only when, the
    name is in the running registry, and then spawns nothing; for a name
    that is not running and is declared it spawns one task, for a handle
    with attempt counter 1, and returns no error; for a name that is not
    running and not declared it returns [NoSuchProcess] and spawns
    nothing. *)
Theorem StartProcess_cases name p :
  ((StartProcess isStringDefined name p).1.1 = Some (AlreadyRunning name)
   <-> is_Some (runningProcesses p !! name))
  ∧ (is_Some (runningProcesses p !! name) ->
     StartProcess isStringDefined name p = (Some (AlreadyRunning name), p, []))
  ∧ (∀ proc,
       runningProcesses p !! name = None ->
       map_get (Processes p) name = Some proc ->
       ∃ process p',
         StartProcess isStringDefined name p = (None, p', [EvGo process])
         ∧ procConf process = set_Name name proc
         ∧ attempt process = 1%Z
         ∧ runningProcesses p' = <[name := process]> (runningProcesses p)
         ∧ wg p' = (wg p + 1)%Z)
  ∧ (runningProcesses p !! name = None ->
     map_get (Processes p) name = None ->
     StartProcess isStringDefined name p = (Some (NoSuchProcess name), p, [])).
Proof.
  unfold StartProcess. rewrite bind_run. unfold getRunningProcess.
  rewrite bind_run. unfold get_project at 1. rewrite ret_run. simpl.
  destruct (runningProcesses p !! name) as [running|] eqn:Hr.
  - rewrite ret_run. simpl. split_and!; try done.
  - rewrite bind_run. unfold get_project at 1. simpl.
    destruct (map_get (Processes p) name) as [proc|] eqn:Hp.
    + rewrite bind_run.
      destruct (runProcess_run (set_Name name proc) p)
        as (process & p' & -> & Hc & Ha & _ & Hreg & Hwg).
      rewrite ret_run. simpl. split_and!.
      * split; [done|]. by intros [? ?].
      * by intros [? ?].
      * intros proc' _ [= <-]. exists process, p'.
        rewrite Hreg. by split_and!.
      * done.
    + rewrite ret_run. simpl. split_and!.
      * split; [done|]. by intros [? ?].
      * by intros [? ?].
      * done.
      * done.
Qed.

(** C6: [StopProcess] on a name that is not in the running registry
    returns [NotRunning] and stops nothing; on a name that is, it calls
    [stop] on its handle and returns no error; after the task of a
    process has ended, and so removed it from the registry, it returns
    [NotRunning] for that process. *)
Theorem StopProcess_cases name p :
  (runningProcesses p !! name = None ->
   StopProcess Process_stop name p = (Some (NotRunning name), p, []))
  ∧ (∀ proc,
       runningProcesses p !! name = Some proc ->
       StopProcess Process_stop name p
       = (None, Process_stop proc p, [EvStop proc]))
  ∧ (∀ process,
       GetName process = name ->
       let p_after :=
         (task Process_WaitForCompletion Process_Run Process_WontRun
            process p).1.2 in
       StopProcess Process_stop name p_after
       = (Some (NotRunning name), p_after, [])).
Proof.
  assert (∀ q, runningProcesses q !! name = None ->
               StopProcess Process_stop name q
               = (Some (NotRunning name), q, [])) as Habsent.
  { intros q Hq. unfold StopProcess. rewrite bind_run.
    unfold getRunningProcess. rewrite bind_run. unfold get_project.
    rewrite ret_run. simpl. by rewrite Hq. }
  split_and!; [apply Habsent| |].
  - intros proc Hr. unfold StopProcess. rewrite bind_run.
    unfold getRunningProcess. rewrite bind_run. unfold get_project.
    rewrite ret_run. simpl. by rewrite Hr.
  - intros process <-. simpl. apply Habsent, task_removes.
Qed.

End ControlFacts.

Lemma StartProcess_cases_witness :
  StartProcess (fun _ => false) "db" db_running
  = (Some (AlreadyRunning "db"), db_running, [])
  ∧ (∃ process p',
       StartProcess (fun _ => false) "web" db_running
       = (None, p', [EvGo process])
       ∧ procConf process = set_Name "web" web_needs_db
       ∧ attempt process = 1%Z
       ∧ runningProcesses p'
         = <["web" := process]> (runningProcesses db_running)
       ∧ wg p' = (wg db_running + 1)%Z)
  ∧ StartProcess (fun _ => false) "queue" db_running
    = (Some (NoSuchProcess "queue"), db_running, []).
Proof.
  split_and!.
  - apply (StartProcess_cases (fun _ => false) "db" db_running).
    by eexists.
  - by apply (StartProcess_cases (fun _ => false) "web" db_running).
  - by apply (StartProcess_cases (fun _ => false) "queue" db_running).
Defined.

Lemma StopProcess_cases_witness :
  let db := handle_of "db" (process_decl false []) in
  StopProcess no_effect "web" db_running
  = (Some (NotRunning "web"), db_running, [])
  ∧ StopProcess no_effect "db" db_running
    = (None, db_running, [EvStop db])
  ∧ (let p_after := (task (exits_with 0) no_effect no_effect db db_running).1.2 in
     StopProcess no_effect "db" p_after = (Some (NotRunning "db"), p_after, [])).
Proof.
  split_and!.
  - by apply (StopProcess_cases (exits_with 0) no_effect no_effect no_effect
                "web" db_running).
  - by apply (StopProcess_cases (exits_with 0) no_effect no_effect no_effect
                "db" db_running).
  - by apply (StopProcess_cases (exits_with 0) no_effect no_effect no_effect
                "db" db_running).
Defined.

(** ** [Run] *)

(** The walker reads nothing of the project but [Processes]. *)
Lemma getProcesses_ext p1 p2 names :
  Processes p1 = Processes p2 -> getProcesses p1 names = getProcesses p2 names.
Proof.
  intros HP. unfold getProcesses. rewrite HP. case_decide as Hlen; [done|].
  clear Hlen. generalize (@nil ProcessConfig).
  induction names as [|name names IH]; intros acc; simpl; [done|].
  rewrite HP. destruct (map_get (Processes p2) name) as [proc|]; [|done].
  destruct (Disabled proc); apply IH.
Qed.

Lemma withProcesses_ext {St} p1 p2 (fn : ProcessFunc St) fuel :
  Processes p1 = Processes p2 ->
  ∀ names done st,
    withProcesses p1 fuel names fn done st
    = withProcesses p2 fuel names fn done st.
Proof.
  intros HP. induction fuel as [|fuel IH]; intros names dn st; simpl; [done|].
  rewrite (getProcesses_ext p1 p2 names HP).
  destruct (getProcesses p2 names) as [processes [e|]]; [done|].
  revert dn st. induction processes as [|process processes IHl];
    intros dn st; simpl; [done|].
  destruct (is_done dn (Name process)); [apply IHl|].
  case_decide.
  - rewrite IH. destruct (withProcesses p2 fuel _ fn _ st)
      as [[[[e1|] dn1] st1]|]; try done.
    destruct (fn process st1) as [st2 [e2|]]; [done|apply IHl].
  - destruct (fn process st) as [st2 [e2|]]; [done|apply IHl].
Qed.

Lemma WithProcesses_ext {St} p1 p2 (fn : ProcessFunc St) names st :
  Processes p1 = Processes p2 ->
  WithProcesses p1 names fn st = WithProcesses p2 names fn st.
Proof.
  intros HP. unfold WithProcesses. rewrite HP. by apply withProcesses_ext.
Qed.

Section RunFacts.

Variable isStringDefined : string -> bool.

Lemma runProcess_each_run runOrder :
  ∀ p, ∃ (handles : list Process) p',
    runProcess_each isStringDefined runOrder p = (tt, p', EvGo <$> handles)
    ∧ procConf <$> handles = runOrder
    ∧ Forall (fun process => attempt process = 1%Z) handles
    ∧ wg p' = (wg p + Z.of_nat (length runOrder))%Z.
Proof.
  induction runOrder as [|proc runOrder IH]; intros p; simpl.
  - exists [], p. split_and!; [done|done|constructor|lia].
  - rewrite bind_run.
    destruct (runProcess_run isStringDefined proc p)
      as (process & p1 & -> & Hc & Ha & _ & _ & Hwg).
    destruct (IH p1) as (handles & p' & -> & Hcs & Has & Hwg').
    exists (process :: handles), p'. split_and!.
    + done.
    + rewrite fmap_cons. by f_equal.
    + by constructor.
    + lia.
Qed.

(** C10: [Run] returns whatever the walk returned, an error too, and has
    then spawned one task for each process that the walk had appended to
    the run order, in that order, and counted as many in [wg], the
    counter its final [wg.Wait] waits on; a process the walk marked that
    depends on an undeclared name makes the walk fail and is not among
    them. *)
Theorem Run_drops_walk_error p :
  map_wf (Processes p) ->
  ∃ err done runOrder p' (handles : list Process),
    WithProcesses p [] append_process [] = Some (err, done, runOrder)
    ∧ Run isStringDefined p = Some (p', EvGo <$> handles)
    ∧ procConf <$> handles = runOrder
    ∧ wg p' = (wg p + Z.of_nat (length runOrder))%Z
    ∧ (∀ x d, is_done done x = true -> d ∈ deps_of p x -> ¬ declared p d ->
              (∃ n, err = Some (NoSuchProcess n))
              ∧ x ∉ Name <$> runOrder).
Proof.
  intros Hwf.
  destruct (WithProcesses_total p append_process [] [])
    as [[[err dn] runOrder] Hw].
  unfold Run. rewrite bind_run. unfold initProcessStates. rewrite bind_run.
  unfold get_project. simpl.
  match goal with
  | |- context [WithProcesses ?q [] append_process []] =>
      lazymatch q with
      | p => fail
      | _ => rewrite (WithProcesses_ext q p append_process [] [] eq_refl)
      end
  end.
  rewrite Hw. rewrite bind_run. simpl.
  match goal with
  | |- context [runProcess_each _ _ ?q] =>
      destruct (runProcess_each_run runOrder q)
        as (handles & p' & -> & Hcs & _ & Hwg)
  end.
  simpl in Hwg. exists err, dn, runOrder, p', handles.
  split_and!; [done|done|done|done|].
  intros x d Hx Hd Hnd.
  assert (x ∉ Name <$> runOrder) as Hout.
  { intros (c & -> & Hc)%list_elem_of_fmap.
    destruct (walk_out_good p Hwf _ _ _ _ c Hw Hc) as [Hg Hdeps].
    rewrite (deps_of_config _ _ _ Hg) in Hd. destruct Hnd. by apply Hdeps. }
  split; [|done]. destruct err as [e|].
  - destruct (walk_error p Hwf _ _ _ _ Hw) as (n & -> & _). eauto.
  - destruct Hout. by eapply walk_marked_out.
Qed.

End RunFacts.

Lemma Run_drops_walk_error_witness :
  ∃ err done runOrder p' (handles : list Process),
    WithProcesses bad_first [] append_process [] = Some (err, done, runOrder)
    ∧ Run (fun _ => false) bad_first = Some (p', EvGo <$> handles)
    ∧ procConf <$> handles = runOrder
    ∧ wg p' = (wg bad_first + Z.of_nat (length runOrder))%Z
    ∧ (∀ x d, is_done done x = true -> d ∈ deps_of bad_first x ->
              ¬ declared bad_first d ->
              (∃ n, err = Some (NoSuchProcess n))
              ∧ x ∉ Name <$> runOrder).
Proof.
  apply Run_drops_walk_error.
  unfold map_wf, map_keys. simpl. by apply (bool_decide_unpack _).
Defined.

(** When [range] yields [b] first, the walk fails before it has appended
    anything, and [Run] spawns no task, none for [a] either. *)
Example Run_spawns_nothing :
  GetDependenciesOrderNames bad_first = Some ([], Some (NoSuchProcess "zz"))
  ∧ snd <$> Run (fun _ => false) bad_first = Some [].
Proof. by vm_compute. Qed.

(** ** Compose-file discovery *)

Section DiscoveryFacts.

Variable Join : string -> string -> string.
Variable Stat : string -> bool.

(** The candidates [findFiles] returns: the paths that exist, in the
    order of the names. *)
Lemma findFiles_loop_filter names pwd candidates :
  findFiles_loop Join Stat names pwd candidates =
  candidates ++ filter (fun f => Stat f = true) (Join pwd <$> names).
Proof.
  revert candidates. induction names as [|n names IH]; intros candidates;
    cbn [findFiles_loop].
  - by rewrite app_nil_r.
  - rewrite fmap_cons, filter_cons. destruct (Stat (Join pwd n)) eqn:E.
    + rewrite IH, decide_True by done. by rewrite <- app_assoc.
    + rewrite IH, decide_False by done. done.
Qed.

Lemma findFiles_filter names pwd :
  findFiles Join Stat names pwd =
  filter (fun f => Stat f = true) (Join pwd <$> names).
Proof. apply findFiles_loop_filter. Qed.

(** C9: [AutoDiscoverComposeFile] returns the path of the first of the
    four default names that exists, and no error; when a later one
    exists too it logs a warning that lists all the paths that exist, in
    the order of preference, and a second one that names the path it
    returns, and when none does it logs nothing; when none of the four
    exists it returns an error and the empty file name. *)
Theorem AutoDiscoverComposeFile_first pwd :
  DefaultFileNames
  = ["compose.yml"; "compose.yaml"; "process-compose.yml";
     "process-compose.yaml"]
  ∧ ((∀ n, n ∈ DefaultFileNames -> Stat (Join pwd n) = false) ->
     AutoDiscoverComposeFile Join Stat pwd
     = ("", Some (NoConfigFiles pwd), []))
  ∧ (∀ before n after,
       DefaultFileNames = before ++ n :: after ->
       (∀ m, m ∈ before -> Stat (Join pwd m) = false) ->
       Stat (Join pwd n) = true ->
       (AutoDiscoverComposeFile Join Stat pwd).1 = (Join pwd n, None)
       ∧ ((∀ m, m ∈ after -> Stat (Join pwd m) = false) ->
          (AutoDiscoverComposeFile Join Stat pwd).2 = [])
       ∧ ((∃ m, m ∈ after ∧ Stat (Join pwd m) = true) ->
          (AutoDiscoverComposeFile Join Stat pwd).2
          = [Warn ("Found multiple config files with supported names: "
                   +:+ strings_Join
                         (filter (fun f => Stat f = true)
                                 (Join pwd <$> DefaultFileNames)) ", ");
             Warn ("Using " +:+ Join pwd n)])).
Proof.
  split; [done|]. unfold AutoDiscoverComposeFile.
  rewrite findFiles_filter. split.
  - intros Hnone.
    assert (filter (fun f => Stat f = true) (Join pwd <$> DefaultFileNames)
            = []) as ->; [|done].
    induction DefaultFileNames as [|n names IH]; [done|].
    rewrite fmap_cons, filter_cons_False.
    + apply IH. intros m Hm. apply Hnone. by right.
    + rewrite Hnone by (by left). done.
  - intros before n after -> Hbefore Hn.
    rewrite fmap_app, fmap_cons, filter_app, filter_cons_True by done.
    assert (filter (fun f => Stat f = true) (Join pwd <$> before) = [])
      as ->.
    { induction before as [|m before IH]; [done|].
      rewrite fmap_cons, filter_cons_False.
      - apply IH. intros m' Hm'. apply Hbefore. by right.
      - rewrite Hbefore by (by left). done. }
    simpl. split; [done|]. split.
    + intros Hafter.
      assert (filter (fun f => Stat f = true) (Join pwd <$> after) = [])
        as ->; [|done].
      clear Hbefore. induction after as [|m after IH]; [done|].
      rewrite fmap_cons, filter_cons_False.
      * apply IH. intros m' Hm'. apply Hafter. by right.
      * rewrite Hafter by (by left). done.
    + intros (m & Hm & Hs).
      destruct (filter (fun f => Stat f = true) (Join pwd <$> after))
        as [|f fs] eqn:E.
      * assert (Join pwd m ∈ filter (fun f => Stat f = true)
                                    (Join pwd <$> after)) as Hin.
        { apply list_elem_of_filter. split; [done|].
          apply list_elem_of_fmap. eauto. }
        rewrite E in Hin. by apply elem_of_nil in Hin.
      * rewrite decide_True by (simpl; lia). done.
Qed.

End DiscoveryFacts.

Lemma AutoDiscoverComposeFile_first_witness :
  (AutoDiscoverComposeFile slash_join two_files "/srv").1
  = ("/srv/compose.yml", None)
  ∧ (AutoDiscoverComposeFile slash_join two_files "/srv").2
    = [Warn ("Found multiple config files with supported names: "
             +:+ "/srv/compose.yml, /srv/process-compose.yaml");
       Warn "Using /srv/compose.yml"].
Proof.
  destruct (proj2 (proj2 (AutoDiscoverComposeFile_first slash_join two_files
                            "/srv"))
              [] "compose.yml"
              ["compose.yaml"; "process-compose.yml"; "process-compose.yaml"]
              eq_refl)
    as (H1 & _ & H3).
  - by intros m ?%elem_of_nil.
  - by vm_compute.
  - split; [exact H1|]. rewrite H3; [by vm_compute|].
    exists "process-compose.yaml". split; [|by vm_compute].
    repeat (first [by left | right]).
Defined.

(** ** The order of strings *)

Lemma ascii_compare_N a b :
  Ascii.compare a b = N.compare (Ascii.N_of_ascii a) (Ascii.N_of_ascii b).
Proof. reflexivity. Qed.

Lemma string_compare_trans_le s1 :
  ∀ s2 s3, String.compare s1 s2 ≠ Gt -> String.compare s2 s3 ≠ Gt ->
           String.compare s1 s3 ≠ Gt.
Proof.
  induction s1 as [|a s1 IH]; intros [|b s2] [|c s3]; simpl; try done.
  rewrite !ascii_compare_N.
  destruct (N.compare_spec (Ascii.N_of_ascii a) (Ascii.N_of_ascii b))
    as [Hab|Hab|Hab]; [| |done];
    destruct (N.compare_spec (Ascii.N_of_ascii b) (Ascii.N_of_ascii c))
      as [Hbc|Hbc|Hbc]; try done;
    destruct (N.compare_spec (Ascii.N_of_ascii a) (Ascii.N_of_ascii c))
      as [Hac|Hac|Hac]; try done; try lia.
  apply IH.
Qed.

Lemma string_le_compare s1 s2 : string_le s1 s2 <-> String.compare s1 s2 ≠ Gt.
Proof.
  unfold string_le, String.leb. by destruct (String.compare s1 s2).
Qed.

Global Instance string_le_trans : Transitive string_le.
Proof.
  intros s1 s2 s3. rewrite !string_le_compare. apply string_compare_trans_le.
Qed.

Global Instance string_le_antisym : AntiSymm (=) string_le.
Proof. intros s1 s2 H1 H2. by apply String.leb_antisym. Qed.

Global Instance string_le_total : Total string_le.
Proof. intros s1 s2. apply String.leb_total. Qed.

(** ** The names in lexicographic order *)

Lemma collect_names_keys entries names :
  collect_names entries names = names ++ map_keys entries.
Proof.
  revert names. induction entries as [|[name proc] entries IH]; intros names;
    simpl.
  - by rewrite app_nil_r.
  - rewrite IH. by rewrite <- app_assoc.
Qed.

Lemma declared_keys p name : declared p name <-> name ∈ map_keys (Processes p).
Proof.
  unfold declared. destruct (map_get (Processes p) name) eqn:E.
  - split; [|by eexists]. intros _.
    apply map_get_Some_elem in E. apply list_elem_of_fmap. by eexists (_, _).
  - apply map_get_None in E. split; [by intros [? ?]|done].
Qed.

Lemma same_project_keys p1 p2 :
  same_project p1 p2 -> map_keys (Processes p1) ≡ₚ map_keys (Processes p2).
Proof.
  intros Hsame. pose proof Hsame as (Hwf1 & Hwf2 & _).
  apply NoDup_Permutation; [done|done|].
  intros k. rewrite <- !declared_keys. split.
  - by apply same_declared.
  - apply same_declared. by apply same_project_sym.
Qed.

Section LexicographicFacts.

Variable sort_Strings : list string -> list string.
Hypothesis sort_sorted : ∀ l, Sorted string_le (sort_Strings l).
Hypothesis sort_perm : ∀ l, sort_Strings l ≡ₚ l.

(** X1: [GetLexicographicProcessNames] returns no error and the declared
    names, the disabled ones too, each as often as it is declared, in
    increasing order. *)
Theorem GetLexicographicProcessNames_sorted p :
  (GetLexicographicProcessNames sort_Strings p).2 = None
  ∧ Sorted string_le (GetLexicographicProcessNames sort_Strings p).1
  ∧ (GetLexicographicProcessNames sort_Strings p).1 ≡ₚ map_keys (Processes p)
  ∧ (∀ name, name ∈ (GetLexicographicProcessNames sort_Strings p).1
             <-> declared p name)
  ∧ (map_wf (Processes p) ->
     NoDup (GetLexicographicProcessNames sort_Strings p).1).
Proof.
  unfold GetLexicographicProcessNames. simpl.
  rewrite collect_names_keys. simpl. split_and!.
  - done.
  - apply sort_sorted.
  - apply sort_perm.
  - intros name. by rewrite sort_perm, declared_keys.
  - intros Hwf. by rewrite sort_perm.
Qed.

(** X2: the result of [GetLexicographicProcessNames] does not depend on the
    order in which [range] yields the processes: two runs on the same
    project return the same list. *)
Theorem GetLexicographicProcessNames_stable p1 p2 :
  same_project p1 p2 ->
  GetLexicographicProcessNames sort_Strings p1
  = GetLexicographicProcessNames sort_Strings p2.
Proof.
  intros Hkeys%same_project_keys. unfold GetLexicographicProcessNames.
  f_equal. rewrite !collect_names_keys. simpl.
  apply (Sorted_unique string_le); [apply sort_sorted|apply sort_sorted|].
  by rewrite !sort_perm.
Qed.

End LexicographicFacts.

Lemma GetLexicographicProcessNames_sorted_witness :
  let names := (GetLexicographicProcessNames (merge_sort string_le) web_stack).1 in
  (GetLexicographicProcessNames (merge_sort string_le) web_stack).2 = None
  ∧ Sorted string_le names
  ∧ names ≡ₚ map_keys (Processes web_stack)
  ∧ (∀ name, name ∈ names <-> declared web_stack name)
  ∧ (map_wf (Processes web_stack) -> NoDup names).
Proof.
  apply (GetLexicographicProcessNames_sorted (merge_sort string_le)).
  - intros l. apply (Sorted_merge_sort string_le).
  - intros l. apply (merge_sort_Permutation string_le).
Defined.

Lemma GetLexicographicProcessNames_stable_witness :
  GetLexicographicProcessNames (merge_sort string_le) run_one
  = GetLexicographicProcessNames (merge_sort string_le) run_two.
Proof.
  apply (GetLexicographicProcessNames_stable (merge_sort string_le)).
  - intros l. apply (Sorted_merge_sort string_le).
  - intros l. apply (merge_sort_Permutation string_le).
  - exact run_one_two.
Defined.

Example lexicographic_names :
  GetLexicographicProcessNames (merge_sort string_le) web_stack
  = (["api"; "cache"; "db"; "web"], None).
Proof. by vm_compute. Qed.

(** ** The state store *)

Lemma initProcessStates_fold (entries : GoMap ProcessConfig) :
  map_wf entries ->
  ∀ (states : gmap string ProcessState.t) name,
    foldl (fun states '(key, proc) =>
             <[key := {| ProcessState.Name := key;
                         ProcessState.Status :=
                           if Disabled proc then ProcessStateDisabled
                           else ProcessStatePending;
                         ProcessState.Restarts := 0;
                         ProcessState.ExitCode := 0 |}]> states)
          states entries !! name
    = match map_get entries name with
      | Some proc =>
          Some {| ProcessState.Name := name;
                  ProcessState.Status :=
                    if Disabled proc then ProcessStateDisabled
                    else ProcessStatePending;
                  ProcessState.Restarts := 0;
                  ProcessState.ExitCode := 0 |}
      | None => states !! name
      end.
Proof.
  unfold map_wf, map_keys.
  induction entries as [|[key proc] entries IH]; intros Hnd states name; simpl;
    [done|].
  rewrite fmap_cons in Hnd. apply NoDup_cons in Hnd as [Hkey Hnd].
  rewrite (IH Hnd). case_decide as Hk.
  - subst key. simpl in Hkey. apply map_get_None in Hkey. rewrite Hkey.
    by rewrite lookup_insert_eq.
  - destruct (map_get entries name); [done|]. by rewrite lookup_insert_ne.
Qed.

(** X3: [initProcessStates] leaves one state record for every declared
    process, under its name, [Pending] or, for a disabled process,
    [Disabled], with no restart and exit code 0, and none for any other
    name, whatever the store held before; it changes nothing else of the
    project and calls nothing. *)
Theorem initProcessStates_states p :
  map_wf (Processes p) ->
  (∀ name,
     GetProcessState (initProcessStates p).1.2 name
     = (fun proc =>
          {| ProcessState.Name := name;
             ProcessState.Status :=
               if Disabled proc then ProcessStateDisabled
               else ProcessStatePending;
             ProcessState.Restarts := 0;
             ProcessState.ExitCode := 0 |}) <$> map_get (Processes p) name)
  ∧ Processes (initProcessStates p).1.2 = Processes p
  ∧ runningProcesses (initProcessStates p).1.2 = runningProcesses p
  ∧ wg (initProcessStates p).1.2 = wg p
  ∧ (initProcessStates p).2 = [].
Proof.
  intros Hwf. split_and!; try done.
  intros name. unfold GetProcessState, initProcessStates. rewrite bind_run.
  simpl. rewrite (initProcessStates_fold _ Hwf).
  destruct (map_get (Processes p) name); [done|]. apply lookup_empty.
Qed.

Lemma initProcessStates_states_witness :
  (∀ name,
     GetProcessState (initProcessStates web_stack).1.2 name
     = (fun proc =>
          {| ProcessState.Name := name;
             ProcessState.Status :=
               if Disabled proc then ProcessStateDisabled
               else ProcessStatePending;
             ProcessState.Restarts := 0;
             ProcessState.ExitCode := 0 |})
         <$> map_get (Processes web_stack) name)
  ∧ Processes (initProcessStates web_stack).1.2 = Processes web_stack
  ∧ runningProcesses (initProcessStates web_stack).1.2
    = runningProcesses web_stack
  ∧ wg (initProcessStates web_stack).1.2 = wg web_stack
  ∧ (initProcessStates web_stack).2 = [].
Proof. apply initProcessStates_states. exact web_stack_wf. Defined.

(** ** Undeclared start names *)

Lemma getProcesses_named_app p before rest acc :
  Forall (declared p) before ->
  getProcesses_named p (before ++ rest) acc
  = getProcesses_named p rest (acc ++ omap (config_of p) before).
Proof.
  intros H. revert acc. induction H as [|name before [proc Hn] _ IH];
    intros acc.
  - simpl. by rewrite app_nil_r.
  - change ((name :: before) ++ rest) with (name :: (before ++ rest)).
    cbn [getProcesses_named]. rewrite Hn.
    assert (omap (config_of p) (name :: before)
            = match config_of p name with
              | Some c => c :: omap (config_of p) before
              | None => omap (config_of p) before
              end) as -> by done.
    unfold config_of at 1. rewrite Hn. cbn [mbind option_bind].
    destruct (Disabled proc); rewrite IH; [done|]. by rewrite <- app_assoc.
Qed.

(** X4: given names of which some is not declared, [getProcesses] returns
    the error [NoSuchProcess] of the first one that is not, together with
    the configurations of the names before it that are not disabled. *)
Theorem getProcesses_first_undeclared p before name after :
  Forall (declared p) before ->
  ¬ declared p name ->
  getProcesses p (before ++ name :: after)
  = (omap (config_of p) before, Some (NoSuchProcess name)).
Proof.
  intros Hbefore Hname. unfold getProcesses.
  rewrite decide_False by (rewrite length_app; simpl; lia).
  rewrite (getProcesses_named_app _ _ _ _ Hbefore). simpl.
  destruct (map_get (Processes p) name) as [proc|] eqn:E; [|done].
  destruct Hname. by exists proc.
Qed.

Lemma getProcesses_first_undeclared_witness :
  getProcesses web_stack (["api"; "cache"] ++ "queue" :: ["db"])
  = (omap (config_of web_stack) ["api"; "cache"],
     Some (NoSuchProcess "queue")).
Proof.
  apply getProcesses_first_undeclared.
  - repeat constructor; by eexists.
  - by intros [? ?].
Defined.

(** X5: [WithProcesses] on names of which some is not declared returns the
    error [NoSuchProcess] of the first one that is not, without a call of
    the visitor, whatever the visitor: its state is as it was and no
    process is marked. *)
Theorem WithProcesses_undeclared_start {St} p (fn : ProcessFunc St)
    before name after st :
  Forall (declared p) before ->
  ¬ declared p name ->
  WithProcesses p (before ++ name :: after) fn st
  = Some (Some (NoSuchProcess name), ∅, st).
Proof.
  intros Hbefore Hname. unfold WithProcesses. simpl.
  assert (getProcesses p (before ++ name :: after)
          = (omap (config_of p) before, Some (NoSuchProcess name))) as ->; [|done].
  unfold getProcesses.
  rewrite decide_False by (rewrite length_app; simpl; lia).
  rewrite (getProcesses_named_app _ _ _ _ Hbefore). simpl.
  destruct (map_get (Processes p) name) as [proc|] eqn:E; [|done].
  destruct Hname. by exists proc.
Qed.

Lemma WithProcesses_undeclared_start_witness :
  WithProcesses web_stack (["api"] ++ "queue" :: ["db"]) append_name []
  = Some (Some (NoSuchProcess "queue"), ∅, []).
Proof.
  apply (WithProcesses_undeclared_start web_stack append_name).
  - repeat constructor; by eexists.
  - by intros [? ?].
Defined.

(** ** Walks on any graph *)

(** X6: with or without cycles among its processes, when the start names
    and the dependencies of every process within reach are declared the
    walk returns no error, and it has marked and visited, once each, the
    processes that can be reached from the start names through processes
    that are not disabled, each under its own name. *)
Theorem walk_visits_each_once p names :
  map_wf (Processes p) ->
  Forall (declared p) names ->
  (∀ x d, reachable p names x -> d ∈ deps_of p x -> declared p d) ->
  ∃ done out,
    WithProcesses p names append_process [] = Some (None, done, out)
    ∧ NoDup (Name <$> out)
    ∧ (∀ x, x ∈ Name <$> out <-> reachable p names x)
    ∧ (∀ x, is_done done x = true <-> x ∈ Name <$> out)
    ∧ (∀ c, c ∈ out -> config_of p (Name c) = Some c).
Proof.
  intros Hwf Hnames Hdeps.
  destruct (WithProcesses_total p append_process names [])
    as [[[err dn] out] Hw].
  assert (err = None) as ->.
  { by apply (walk_success_iff p Hwf _ _ _ _ Hw). }
  exists dn, out. split_and!.
  - done.
  - by eapply walk_out_nodup.
  - intros x. by eapply walk_out_reachable.
  - intros x. split.
    + by eapply walk_marked_out.
    + intros (c & -> & Hc)%list_elem_of_fmap. by eapply walk_out_marked.
  - intros c Hc. by destruct (walk_out_good p Hwf _ _ _ _ c Hw Hc).
Qed.

Lemma two_cycle_wf : map_wf (Processes two_cycle).
Proof. unfold map_wf, map_keys. simpl. by apply (bool_decide_unpack _). Defined.

Lemma two_cycle_declared x d :
  d ∈ deps_of two_cycle x -> declared two_cycle d.
Proof.
  unfold deps_of, config_of, declared. simpl.
  repeat case_decide; simplify_eq; simpl; set_solver by eauto.
Defined.

Lemma walk_visits_each_once_witness :
  ∃ done out,
    WithProcesses two_cycle ["a"] append_process [] = Some (None, done, out)
    ∧ NoDup (Name <$> out)
    ∧ (∀ x, x ∈ Name <$> out <-> reachable two_cycle ["a"] x)
    ∧ (∀ x, is_done done x = true <-> x ∈ Name <$> out)
    ∧ (∀ c, c ∈ out -> config_of two_cycle (Name c) = Some c).
Proof.
  apply walk_visits_each_once.
  - exact two_cycle_wf.
  - repeat constructor. by eexists.
  - intros x d _. apply two_cycle_declared.
Defined.

Lemma reachable_all p x : reachable p [] x <-> enabled p x.
Proof.
  split.
  - intros (r & _ & He & [-> | (y & _ & [_ Hx])]%rtc_inv_r); done.
  - intros He. exists x. split_and!; [|done|apply rtc_refl].
    unfold start_names. simpl. by apply declared_keys, enabled_declared.
Qed.

(** X7: [GetDependenciesOrderNames] returns an error exactly when a
    process that is not disabled has a dependency that is not declared;
    what a disabled process depends on is never looked at.  Without an
    error the order holds the processes that are not disabled, once each;
    with an error it holds some of them. *)
Theorem GetDependenciesOrderNames_cases p :
  map_wf (Processes p) ->
  ∃ order err,
    GetDependenciesOrderNames p = Some (order, err)
    ∧ (err = None <->
       ∀ x d, enabled p x -> d ∈ deps_of p x -> declared p d)
    ∧ NoDup order
    ∧ (∀ x, x ∈ order -> enabled p x)
    ∧ (err = None -> ∀ x, enabled p x -> x ∈ order).
Proof.
  intros Hwf.
  destruct (WithProcesses_total p append_process [] [])
    as [[[err dn] out] Hw].
  exists (Name <$> out), err. split_and!.
  - unfold GetDependenciesOrderNames.
    by rewrite (WithProcesses_names _ _ _ _ _ Hw).
  - rewrite (walk_success_iff p Hwf _ _ _ _ Hw). split.
    + intros [_ Hd] x d Hx. apply Hd. by apply reachable_all.
    + intros Hd. split; [constructor|].
      intros x d Hx. apply Hd. by apply reachable_all.
  - by eapply walk_out_nodup.
  - intros x (c & -> & Hc)%list_elem_of_fmap.
    destruct (walk_out_good p Hwf _ _ _ _ c Hw Hc) as [Hg _]. by exists c.
  - intros -> x Hx. apply (walk_out_reachable p Hwf _ _ _ x Hw).
    by apply reachable_all.
Qed.

Lemma GetDependenciesOrderNames_cases_witness :
  ∃ order err,
    GetDependenciesOrderNames web_stack = Some (order, err)
    ∧ (err = None <->
       ∀ x d, enabled web_stack x -> d ∈ deps_of web_stack x ->
              declared web_stack d)
    ∧ NoDup order
    ∧ (∀ x, x ∈ order -> enabled web_stack x)
    ∧ (err = None -> ∀ x, enabled web_stack x -> x ∈ order).
Proof. apply GetDependenciesOrderNames_cases. exact web_stack_wf. Defined.

(** ** A visitor that fails *)

Section VisitorFails.

Variable p : Project.
Context {St : Type}.
Variable fn : ProcessFunc St.

Lemma visit_until_app l1 l2 st :
  visit_until fn (l1 ++ l2) st
  = match visit_until fn l1 st with
    | (calls, st', None) =>
        (calls ++ (visit_until fn l2 st').1.1,
         (visit_until fn l2 st').1.2, (visit_until fn l2 st').2)
    | r => r
    end.
Proof.
  revert st. induction l1 as [|c l1 IH]; intros st; cbn [app visit_until].
  { by destruct (visit_until fn l2 st) as [[? ?] ?]. }
  destruct (fn c st) as [st' [e|]]; [done|].
  rewrite IH. by destruct (visit_until fn l1 st') as [[calls st''] [e|]].
Qed.

(** The calls made are a beginning of the list; they are the whole list
    when no call returned an error; otherwise the last of them is the one
    call that returned an error, from the state the calls before it
    left. *)
Lemma visit_until_calls out st :
  (visit_until fn out st).1.1 `prefix_of` out
  ∧ ((visit_until fn out st).2 = None -> (visit_until fn out st).1.1 = out)
  ∧ (∀ e, (visit_until fn out st).2 = Some e ->
       ∃ before c after,
         out = before ++ c :: after
         ∧ (visit_until fn out st).1.1 = before ++ [c]
         ∧ (visit_until fn before st).2 = None
         ∧ fn c (visit_until fn before st).1.2
           = ((visit_until fn out st).1.2, Some e)).
Proof.
  revert st. induction out as [|c out IH]; intros st; cbn [visit_until].
  { split_and!; [done|done|]. by intros e. }
  destruct (fn c st) as [st' [e|]] eqn:Hfn.
  - simpl. split_and!.
    + by exists out.
    + done.
    + intros e' [= <-]. exists [], c, out. simpl. by rewrite Hfn.
  - destruct (IH st') as (Hp & Hn & Hs).
    destruct (visit_until fn out st') as [[calls st''] err] eqn:Hv.
    simpl in *. split_and!.
    + by apply prefix_cons.
    + intros He. by rewrite Hn.
    + intros e He.
      destruct (Hs e He) as (before & c' & after & -> & -> & Hb & Hc).
      exists (c :: before), c', after. cbn [visit_until]. rewrite Hfn.
      destruct (visit_until fn before st') as [[cs sb] eb]. simpl in *.
      by subst eb.
Qed.

Lemma visited_app err1 dn1 l1 l2 calls0 st r2 :
  (visit_until fn l1 st).2 = None ->
  visited fn err1 dn1 l2 (calls0 ++ (visit_until fn l1 st).1.1)
    (visit_until fn l1 st).1.2 r2 ->
  visited fn err1 dn1 (l1 ++ l2) calls0 st r2.
Proof.
  intros Hn (dn2 & -> & Hd). exists dn2. rewrite visit_until_app.
  destruct (visit_until fn l1 st) as [[calls st'] e]. simpl in *. subst e.
  simpl. by rewrite <- app_assoc.
Qed.

Lemma withProcesses_loop_visited
    (rec1 : list string -> gmap string bool -> list ProcessConfig ->
            option (Walk (list ProcessConfig)))
    (rec2 : list string -> gmap string bool -> list ProcessConfig * St ->
            option (Walk (list ProcessConfig * St))) :
  (∀ names dn out err dn' out',
      rec1 names dn out = Some (err, dn', out') ->
      ∃ new, out' = out ++ new ∧ walks p names dn err dn' new) ->
  (∀ names dn out calls0 st err1 dn1 new,
      rec1 names dn out = Some (err1, dn1, out ++ new) ->
      visited fn err1 dn1 new calls0 st (rec2 names dn (calls0, st))) ->
  ∀ processes dn out calls0 st err1 dn1 new,
    withProcesses_loop append_process rec1 processes dn out
      = Some (err1, dn1, out ++ new) ->
    visited fn err1 dn1 new calls0 st
      (withProcesses_loop (logged fn) rec2 processes dn (calls0, st)).
Proof.
  intros Hwalks Hrec.
  pose proof (withProcesses_loop_loops p rec1 Hwalks) as Happ.
  induction processes as [|process processes IH];
    intros dn out calls0 st err1 dn1 new; simpl.
  { intros [= <- <- Ho]. rewrite <- (app_nil_r out) in Ho at 1.
    apply app_inv_head in Ho as <-. exists dn. simpl.
    by rewrite app_nil_r. }
  destruct (is_done dn (Name process)); [by apply IH|].
  assert (∀ dn0 out0 calls1 st1 rest,
    withProcesses_loop append_process rec1 processes dn0 (out0 ++ [process])
      = Some (err1, dn1, out0 ++ rest) ->
    visited fn err1 dn1 rest calls1 st1
      (match fn process st1 with
       | (st', Some err) => Some (Some err, dn0, (calls1 ++ [process], st'))
       | (st', None) =>
           withProcesses_loop (logged fn) rec2 processes dn0
             (calls1 ++ [process], st')
       end)) as Hvisit.
  { intros dn0 out0 calls1 st1 rest Hl.
    pose proof Hl as (more & Hmore & _)%Happ.
    rewrite <- app_assoc in Hmore. apply app_inv_head in Hmore as ->.
    rewrite (app_assoc out0 [process] more) in Hl.
    apply (IH _ _ (calls1 ++ [process])) with (st := (fn process st1).1)
      in Hl.
    unfold visited. cbn [visit_until].
    destruct (fn process st1) as [st' [e|]] eqn:Hfn.
    - exists dn0. simpl. rewrite Hfn. simpl. split; [done|]. discriminate.
    - simpl in Hl. destruct Hl as (dn2 & -> & Hd). exists dn2.
      simpl. rewrite Hfn.
      destruct (visit_until fn more st') as [[calls st''] e']. simpl in *.
      by rewrite <- app_assoc. }
  assert (∀ walked1 walked2 newr,
    (∀ e1r d1r out1r, walked1 = Some (e1r, d1r, out1r) ->
                      out1r = out ++ newr) ->
    (∀ e1r d1r, walked1 = Some (e1r, d1r, out ++ newr) ->
                visited fn e1r d1r newr calls0 st walked2) ->
    match walked1 with
    | None => None
    | Some (Some err, dn', out') => Some (Some err, dn', out')
    | Some (None, dn', out') =>
        match append_process process out' with
        | (out'', Some err) => Some (Some err, dn', out'')
        | (out'', None) =>
            withProcesses_loop append_process rec1 processes dn' out''
        end
    end = Some (err1, dn1, out ++ new) ->
    visited fn err1 dn1 new calls0 st
      (match walked2 with
       | None => None
       | Some (Some err, dn', cs) => Some (Some err, dn', cs)
       | Some (None, dn', cs) =>
           match logged fn process cs with
           | (cs', Some err) => Some (Some err, dn', cs')
           | (cs', None) =>
               withProcesses_loop (logged fn) rec2 processes dn' cs'
           end
       end)) as Hwalked.
  { intros walked1 walked2 newr Hout Hvis.
    destruct walked1 as [[[e1r d1r] out1r]|]; [|done].
    pose proof (Hout _ _ _ eq_refl) as ->.
    destruct (Hvis _ _ eq_refl) as (d2r & -> & Hd).
    destruct e1r as [e|].
    - intros [= <- <- Ho]. apply app_inv_head in Ho as <-.
      exists d2r. split; [|done].
      by destruct (visit_until fn newr st) as [[calls st'] [e'|]].
    - simpl. intros Hl.
      pose proof Hl as (more & Hmore & _)%Happ.
      rewrite <- !app_assoc in Hmore. apply app_inv_head in Hmore as ->.
      destruct (visit_until fn newr st) as [[calls st'] [e'|]] eqn:Hv.
      + simpl. exists d2r. rewrite visit_until_app, Hv. simpl.
        split; [done|]. discriminate.
      + simpl in *. rewrite (Hd eq_refl).
        apply visited_app; [by rewrite Hv|]. rewrite Hv. simpl.
        rewrite (app_assoc out newr (process :: more)) in Hl.
        apply (Hvisit _ _ (calls0 ++ calls) st') in Hl.
        unfold logged. by destruct (fn process st') as [s' [e'|]]. }
  case_decide.
  - apply (Hwalked _ _
             (match rec1 (GetDependencies process)
                      (<[Name process := true]> dn) out with
              | Some (_, _, out1r) => drop (length out) out1r
              | None => []
              end)).
    + intros e1r d1r out1r Hr. rewrite Hr.
      apply Hwalks in Hr as (newr & -> & _).
      by rewrite drop_app_length.
    + intros e1r d1r Hr. by eapply Hrec.
  - apply (Hwalked (Some (None, <[Name process := true]> dn, out))
                   (Some (None, <[Name process := true]> dn, (calls0, st)))
                   []).
    + intros e1r d1r out1r [= <- <- <-]. by rewrite app_nil_r.
    + intros e1r d1r [= <- <-]. exists (<[Name process := true]> dn).
      simpl. by rewrite app_nil_r.
Qed.

Lemma withProcesses_visited fuel :
  ∀ names dn out calls0 st err1 dn1 new,
    withProcesses p fuel names append_process dn out
      = Some (err1, dn1, out ++ new) ->
    visited fn err1 dn1 new calls0 st
      (withProcesses p fuel names (logged fn) dn (calls0, st)).
Proof.
  induction fuel as [|fuel IH];
    intros names dn out calls0 st err1 dn1 new; simpl.
  { discriminate. }
  destruct (getProcesses p names) as [processes [e|]].
  - intros [= <- <- Ho]. rewrite <- (app_nil_r out) in Ho at 1.
    apply app_inv_head in Ho as <-. exists dn. simpl.
    by rewrite app_nil_r.
  - apply withProcesses_loop_visited; [apply withProcesses_walks|apply IH].
Qed.

(** X8: whatever the visitor [fn], [WithProcesses] calls it on the
    processes that the walk of [Run] appends, in that order and from the
    state it is given, each call from the state the one before left.  It
    stops at the first call on which [fn] returns an error and returns
    that error, with the state that call left: the calls before it have
    returned no error, and [fn] is called on no process after it.  When no
    call returns an error [fn] has been called on all of them, and the
    walk returns the error and the [done] map that the walk of [Run]
    returns. *)
Theorem WithProcesses_stops_at_visitor_error names st :
  ∃ err done out done',
    WithProcesses p names append_process [] = Some (err, done, out)
    ∧ WithProcesses p names fn st
      = Some (match (visit_until fn out st).2 with
              | Some e => Some e
              | None => err
              end, done', (visit_until fn out st).1.2)
    ∧ WithProcesses p names (logged fn) ([], st)
      = Some (match (visit_until fn out st).2 with
              | Some e => Some e
              | None => err
              end, done', (visit_until fn out st).1)
    ∧ ((visit_until fn out st).2 = None ->
       done' = done ∧ (visit_until fn out st).1.1 = out)
    ∧ (∀ e, (visit_until fn out st).2 = Some e ->
         ∃ before c after,
           out = before ++ c :: after
           ∧ (visit_until fn out st).1.1 = before ++ [c]
           ∧ (visit_until fn before st).2 = None
           ∧ (visit_until fn before st).1.1 = before
           ∧ fn c (visit_until fn before st).1.2
             = ((visit_until fn out st).1.2, Some e)).
Proof.
  destruct (WithProcesses_total p append_process names [])
    as [[[err dn] out] Hw].
  destruct (withProcesses_visited _ names ∅ [] [] st err dn out Hw)
    as (dn' & Hl & Hd).
  cbn [app] in Hl.
  exists err, dn, out, dn'.
  destruct (visit_until_calls out st) as (_ & Hall & Hfirst).
  split_and!; [done| | |by auto|].
  - pose proof (withProcesses_alike p (logged fn) fn
                  (fun cs s => cs.2 = s)) as Ha.
    assert (∀ c (st1 : list ProcessConfig * St) (s : St),
               st1.2 = s ->
               (logged fn c st1).2 = (fn c s).2
               ∧ (logged fn c st1).1.2 = (fn c s).1) as Hstep.
    { intros c [cs s0] s Hs. simpl in Hs. subst s. unfold logged.
      by destruct (fn c s0) as [s' e]. }
    specialize (Ha Hstep (S (length (Processes p))) names ∅ ([], st) st
                  eq_refl).
    unfold WithProcesses in *. rewrite Hl in Ha.
    destruct (withProcesses p _ names fn ∅ st) as [[[e3 d3] s3]|]; [|done].
    by destruct Ha as (-> & -> & <-).
  - unfold WithProcesses in *. rewrite Hl.
    by destruct (visit_until fn out st) as [[calls st'] e].
  - intros e He.
    destruct (Hfirst e He) as (before & c & after & Ho & Hc & Hb & Hfn).
    exists before, c, after. split_and!; try done.
    by apply (visit_until_calls before st).
Qed.

End VisitorFails.

(** On the web stack a visitor that fails on [api] is called on [db] and
    on [api], and the walk returns its error; [web] is not called. *)
Example walk_fails_on_api :
  ∃ done,
    WithProcesses web_stack [] (fails_on "api") []
    = Some (Some (NotRunning "api"), done, ["db"; "api"]).
Proof. eexists. by vm_compute. Qed.

(** ** What [Run] launches *)

Lemma foldr_delete_lookup {V} (m : gmap string V) (ended : list string) name :
  foldr delete m ended !! name
  = if decide (name ∈ ended) then None else m !! name.
Proof.
  induction ended as [|k ended IH]; cbn [foldr].
  { destruct (decide (name ∈ [])) as [Hin|_]; [|done].
    by apply elem_of_nil in Hin. }
  destruct (decide (name = k)) as [->|Hne].
  - rewrite lookup_delete_eq.
    destruct (decide (k ∈ k :: ended)) as [_|Hn]; [done|].
    destruct Hn. by left.
  - rewrite lookup_delete_ne by done. rewrite IH.
    destruct (decide (name ∈ ended)) as [Hin|Hin],
             (decide (name ∈ k :: ended)) as [Hc|Hc]; try done.
    + destruct Hc. by right.
    + by apply elem_of_cons in Hc as [?|?].
Qed.

Lemma foldl_insert_lookup (f : ProcessConfig -> Process) runOrder :
  (∀ proc, GetName (f proc) = Name proc) ->
  NoDup (Name <$> runOrder) ->
  ∀ (running : gmap string Process) name h,
    (foldl (fun running proc => <[Name proc := f proc]> running)
           running runOrder) !! name = Some h
    <-> (h ∈ f <$> runOrder ∧ GetName h = name)
        ∨ ((name ∉ Name <$> runOrder) ∧ running !! name = Some h).
Proof.
  intros Hf. induction runOrder as [|a runOrder IH]; intros Hnd running name h.
  { simpl. split; [intros ?; right; split; [apply not_elem_of_nil|done]|].
    by intros [[?%elem_of_nil _]|[_ ?]]. }
  rewrite fmap_cons in Hnd. apply NoDup_cons in Hnd as [Ha Hnd].
  cbn [foldl]. rewrite (IH Hnd).
  rewrite !fmap_cons, elem_of_cons, not_elem_of_cons.
  destruct (decide (name = Name a)) as [->|Hne].
  - rewrite lookup_insert_eq. split.
    + intros [[Hh Hn]|[_ [= <-]]]; left; auto.
    + intros [[[->|Hh] Hn]|[[? _] _]]; [right|left|done]; auto.
  - rewrite lookup_insert_ne by done. split.
    + intros [[Hh Hn]|[Hn Hr]]; [left|right]; auto.
    + intros [[[->|Hh] Hn]|[[_ Hn] Hr]]; [|left|right]; auto.
      destruct Hne. by rewrite <- Hn, Hf.
Qed.

Section RunLaunch.

Variable isStringDefined : string -> bool.

Lemma runProcess_each_handles runOrder :
  ∀ p1 p,
    Environment p1 = Environment p -> logger p1 = logger p ->
    processStates p1 = processStates p ->
    ∃ p',
      runProcess_each isStringDefined runOrder p1
      = (tt, p', EvGo <$> (handle_for isStringDefined p <$> runOrder))
      ∧ runningProcesses p'
        = foldl (fun running proc =>
                   <[Name proc := handle_for isStringDefined p proc]> running)
                (runningProcesses p1) runOrder
      ∧ wg p' = (wg p1 + Z.of_nat (length runOrder))%Z
      ∧ Processes p' = Processes p1.
Proof.
  induction runOrder as [|proc runOrder IH]; intros p1 p He Hl Hs.
  - exists p1. simpl. split_and!; try done. lia.
  - cbn [runProcess_each]. rewrite bind_run.
    assert (∃ p2,
      runProcess isStringDefined proc p1
      = (tt, p2, [EvGo (handle_for isStringDefined p proc)])
      ∧ Environment p2 = Environment p ∧ logger p2 = logger p
      ∧ processStates p2 = processStates p
      ∧ runningProcesses p2
        = <[Name proc := handle_for isStringDefined p proc]>
            (runningProcesses p1)
      ∧ wg p2 = (wg p1 + 1)%Z ∧ Processes p2 = Processes p1)
      as (p2 & -> & He2 & Hl2 & Hs2 & Hr2 & Hw2 & HP2).
    { assert (handle_for isStringDefined p1 proc
              = handle_for isStringDefined p proc) as <-.
      { unfold handle_for, GetProcessState. by rewrite He, Hl, Hs. }
      eexists. split; [reflexivity|]. by split_and!. }
    destruct (IH p2 p He2 Hl2 Hs2) as (p' & -> & Hr & Hw & HP).
    exists p'. split_and!.
    + done.
    + by rewrite Hr, Hr2.
    + rewrite Hw, Hw2. simpl length. lia.
    + by rewrite HP.
Qed.

(** [Run] up to [wg.Wait]: the handles it has made, from the project as it
    is once the states are in place, and the registry it leaves. *)
Lemma Run_launch p :
  map_wf (Processes p) ->
  ∃ err done runOrder p2 p',
    WithProcesses p [] append_process [] = Some (err, done, runOrder)
    ∧ Run isStringDefined p
      = Some (p', EvGo <$> (handle_for isStringDefined p2 <$> runOrder))
    ∧ Environment p2 = Environment p
    ∧ (∀ name, GetProcessState p2 name
               = initial_state name <$> map_get (Processes p) name)
    ∧ runningProcesses p'
      = foldl (fun running proc =>
                 <[Name proc := handle_for isStringDefined p2 proc]> running)
              ∅ runOrder
    ∧ wg p' = (wg p + Z.of_nat (length runOrder))%Z
    ∧ Processes p' = Processes p.
Proof.
  intros Hwf.
  destruct (WithProcesses_total p append_process [] [])
    as [[[err dn] runOrder] Hw].
  unfold Run. rewrite bind_run. unfold initProcessStates. rewrite bind_run.
  unfold get_project. simpl.
  match goal with
  | |- context [WithProcesses ?q [] append_process []] =>
      lazymatch q with
      | p => fail
      | _ => rewrite (WithProcesses_ext q p append_process [] [] eq_refl)
      end
  end.
  rewrite Hw. rewrite bind_run. simpl.
  match goal with
  | |- context [runProcess_each _ _ ?q] =>
      destruct (runProcess_each_handles runOrder q q eq_refl eq_refl eq_refl)
        as (p' & -> & Hr & Hwg & HP);
      exists err, dn, runOrder, q, p'
  end.
  split_and!; try done.
  intros name. unfold GetProcessState. simpl.
  rewrite (initProcessStates_fold _ Hwf).
  destruct (map_get (Processes p) name); [done|]. apply lookup_empty.
Qed.

(** X9: the tasks [Run] spawns are for distinct processes, each declared
    and not disabled, under its own name; each handle has the attempt
    counter 1, the environment of the project and the state record of its
    process, which is [Pending]. *)
Theorem Run_launches_enabled_once p :
  map_wf (Processes p) ->
  ∃ p' (handles : list Process),
    Run isStringDefined p = Some (p', EvGo <$> handles)
    ∧ NoDup (GetName <$> handles)
    ∧ (∀ h, h ∈ handles ->
         config_of p (GetName h) = Some (procConf h)
         ∧ attempt h = 1%Z
         ∧ globalEnv h = Environment p
         ∧ procState h
           = Some {| ProcessState.Name := GetName h;
                     ProcessState.Status := ProcessStatePending;
                     ProcessState.Restarts := 0;
                     ProcessState.ExitCode := 0 |}).
Proof.
  intros Hwf.
  destruct (Run_launch p Hwf)
    as (err & dn & runOrder & p2 & p' & Hw & HRun & He & Hs & _).
  exists p', (handle_for isStringDefined p2 <$> runOrder). split_and!.
  - done.
  - rewrite <- list_fmap_compose.
    apply (walk_out_nodup p _ _ _ _ Hw).
  - intros h (c & -> & Hc)%list_elem_of_fmap.
    destruct (walk_out_good p Hwf _ _ _ _ c Hw Hc) as [Hg _].
    unfold GetName. simpl. split_and!; try done.
    rewrite Hs. unfold good, config_of in Hg.
    destruct (map_get (Processes p) (Name c)) as [proc|]; [|done].
    simpl in *. unfold initial_state.
    by destruct (Disabled proc).
Qed.

(** X10: the steps of [Run] itself (the registry made anew, then for each
    process of the run order one [addRunningProcess] and one [wg.Add]
    before its task is spawned) leave a registry that holds the handles
    [Run] has spawned a task for, each under the name of its process, and
    nothing else, whatever the registry held before; [wg] has been raised
    by their number.  A task that ends removes its own name: with the
    names [ended] of the tasks that have ended deleted, the registry holds
    the spawned handles of the other names, and nothing else. *)
Theorem Run_registry p :
  map_wf (Processes p) ->
  ∃ p' (handles : list Process),
    Run isStringDefined p = Some (p', EvGo <$> handles)
    ∧ NoDup (GetName <$> handles)
    ∧ (∀ name h, runningProcesses p' !! name = Some h
                 <-> h ∈ handles ∧ GetName h = name)
    ∧ (∀ (ended : list string) name h,
         foldr delete (runningProcesses p') ended !! name = Some h
         <-> h ∈ handles ∧ GetName h = name ∧ name ∉ ended)
    ∧ wg p' = (wg p + Z.of_nat (length handles))%Z.
Proof.
  intros Hwf.
  destruct (Run_launch p Hwf)
    as (err & dn & runOrder & p2 & p' & Hw & HRun & _ & _ & Hr & Hwg & _).
  exists p', (handle_for isStringDefined p2 <$> runOrder).
  assert (∀ name h, runningProcesses p' !! name = Some h
                    <-> h ∈ handle_for isStringDefined p2 <$> runOrder
                        ∧ GetName h = name) as Hreg.
  { intros name h. rewrite Hr.
    rewrite (foldl_insert_lookup (handle_for isStringDefined p2) runOrder);
      [|done|apply (walk_out_nodup p _ _ _ _ Hw)].
    rewrite lookup_empty. split; [|auto]. by intros [?|[_ ?]]. }
  split_and!.
  - done.
  - rewrite <- list_fmap_compose. apply (walk_out_nodup p _ _ _ _ Hw).
  - done.
  - intros ended name h. rewrite foldr_delete_lookup.
    destruct (decide (name ∈ ended)) as [Hin|Hin].
    + split; [done|]. by intros (_ & _ & ?).
    + rewrite Hreg. split; [by intros [? ?]|by intros (? & ? & _)].
  - by rewrite length_fmap.
Qed.

End RunLaunch.

Lemma Run_launches_enabled_once_witness :
  ∃ p' (handles : list Process),
    Run (fun _ => false) web_stack = Some (p', EvGo <$> handles)
    ∧ NoDup (GetName <$> handles)
    ∧ (∀ h, h ∈ handles ->
         config_of web_stack (GetName h) = Some (procConf h)
         ∧ attempt h = 1%Z
         ∧ globalEnv h = Environment web_stack
         ∧ procState h
           = Some {| ProcessState.Name := GetName h;
                     ProcessState.Status := ProcessStatePending;
                     ProcessState.Restarts := 0;
                     ProcessState.ExitCode := 0 |}).
Proof. apply Run_launches_enabled_once. exact web_stack_wf. Defined.

Lemma Run_registry_witness :
  ∃ p' (handles : list Process),
    Run (fun _ => false) web_stack = Some (p', EvGo <$> handles)
    ∧ NoDup (GetName <$> handles)
    ∧ (∀ name h, runningProcesses p' !! name = Some h
                 <-> h ∈ handles ∧ GetName h = name)
    ∧ (∀ (ended : list string) name h,
         foldr delete (runningProcesses p') ended !! name = Some h
         <-> h ∈ handles ∧ GetName h = name ∧ name ∉ ended)
    ∧ wg p' = (wg web_stack + Z.of_nat (length handles))%Z.
Proof. apply Run_registry. exact web_stack_wf. Defined.

(** ** What a task leaves *)

Section TaskLeaves.

Variable Process_WaitForCompletion : Process -> string -> Project -> Z * Project.
Variable Process_Run : Process -> Project -> Project.
Variable Process_WontRun : Process -> Project -> Project.

(** The waits up to an unmet dependency: the last event of [waitIfNeeded]
    is then the wait that failed. *)
Lemma waitIfNeeded_loop_error process deps :
  ∀ p e p' evs,
    waitIfNeeded_loop Process_WaitForCompletion process deps p
      = (Some e, p', evs) ->
    ∃ evs' dep d runningProc exitCode,
      evs = evs' ++ [EvWaitForCompletion dep runningProc (Name process)
                       exitCode]
      ∧ e = UnmetDependency (Name process) dep exitCode
      ∧ exitCode ≠ 0%Z
      ∧ (dep, d) ∈ deps
      ∧ Condition d = ProcessConditionCompletedSuccessfully
      ∧ Forall (fun ev => ∃ dep' h' c',
                  ev = EvWaitForCompletion dep' h' (Name process) c') evs'.
Proof.
  induction deps as [|[k dep] deps IH]; intros p e p' evs; [done|].
  rewrite waitIfNeeded_loop_cons.
  assert (∀ q ev0,
    (∃ dep' h' c', ev0 = EvWaitForCompletion dep' h' (Name process) c') ->
    (let '(err, p2, evs0) :=
       waitIfNeeded_loop Process_WaitForCompletion process deps q in
     (err, p2, ev0 :: evs0)) = (Some e, p', evs) ->
    ∃ evs' dep0 d runningProc exitCode,
      evs = evs' ++ [EvWaitForCompletion dep0 runningProc (Name process)
                       exitCode]
      ∧ e = UnmetDependency (Name process) dep0 exitCode
      ∧ exitCode ≠ 0%Z
      ∧ (dep0, d) ∈ (k, dep) :: deps
      ∧ Condition d = ProcessConditionCompletedSuccessfully
      ∧ Forall (fun ev => ∃ dep' h' c',
                  ev = EvWaitForCompletion dep' h' (Name process) c') evs')
    as Hnext.
  { intros q ev0 Hev0.
    destruct (waitIfNeeded_loop _ process deps q) as [[err p2] evs0] eqn:Hl.
    intros [= -> -> <-].
    destruct (IH _ _ _ _ Hl) as (evs' & d0 & d & h & c & -> & ? & ? & ? & ? & ?).
    exists (ev0 :: evs'), d0, d, h, c. split_and!; try done.
    - by right.
    - by constructor. }
  destruct (runningProcesses p !! k) as [runningProc|].
  - destruct (Process_WaitForCompletion runningProc (Name process) p)
      as [exitCode p1].
    destruct (Condition dep) eqn:Hcond.
    + apply Hnext. by eexists _, _, _.
    + case_decide as Hc.
      * intros [= <- <- <-]. exists [], k, dep, runningProc, exitCode.
        split_and!; try done; first [by left|constructor].
      * apply Hnext. by eexists _, _, _.
  - intros Hl.
    destruct (IH _ _ _ _ Hl) as (evs' & d0 & d & h & c & -> & ? & ? & ? & ? & ?).
    exists evs', d0, d, h, c. split_and!; try done. by right.
Qed.

(** X11: when [waitIfNeeded] returns an error, the last thing it did was
    the wait that failed: on a dependency on condition
    [CompletedSuccessfully], with an exit code that is not zero; the
    error holds the process, that dependency and that exit code, and no
    dependency is looked up after it. *)
Theorem waitIfNeeded_stops_at_unmet process p e :
  (waitIfNeeded Process_WaitForCompletion process p).1.1 = Some e ->
  ∃ evs' dep d runningProc exitCode,
    (waitIfNeeded Process_WaitForCompletion process p).2
    = evs' ++ [EvWaitForCompletion dep runningProc (Name process) exitCode]
    ∧ e = UnmetDependency (Name process) dep exitCode
    ∧ exitCode ≠ 0%Z
    ∧ (dep, d) ∈ DependsOn process
    ∧ Condition d = ProcessConditionCompletedSuccessfully
    ∧ Forall (fun ev => ∃ dep' h' c',
                ev = EvWaitForCompletion dep' h' (Name process) c') evs'.
Proof.
  unfold waitIfNeeded.
  destruct (waitIfNeeded_loop _ process (DependsOn process) p)
    as [[err p'] evs] eqn:Hl.
  simpl. intros ->. by apply (waitIfNeeded_loop_error _ _ _ _ _ _ Hl).
Qed.

Hypothesis wait_keeps : ∀ h w q,
  runningProcesses (Process_WaitForCompletion h w q).2 = runningProcesses q
  ∧ wg (Process_WaitForCompletion h w q).2 = wg q.
Hypothesis run_keeps : ∀ h q,
  runningProcesses (Process_Run h q) = runningProcesses q
  ∧ wg (Process_Run h q) = wg q.
Hypothesis wontrun_keeps : ∀ h q,
  runningProcesses (Process_WontRun h q) = runningProcesses q
  ∧ wg (Process_WontRun h q) = wg q.

Lemma waitIfNeeded_loop_keeps process deps :
  ∀ p,
    runningProcesses
      (waitIfNeeded_loop Process_WaitForCompletion process deps p).1.2
    = runningProcesses p
    ∧ wg (waitIfNeeded_loop Process_WaitForCompletion process deps p).1.2
      = wg p.
Proof.
  induction deps as [|[k dep] deps IH]; intros p; [done|].
  rewrite waitIfNeeded_loop_cons.
  destruct (runningProcesses p !! k) as [runningProc|]; [|apply IH].
  pose proof (wait_keeps runningProc (Name process) p) as [Hr Hw].
  destruct (Process_WaitForCompletion runningProc (Name process) p)
    as [exitCode p1].
  simpl in Hr, Hw. specialize (IH p1).
  destruct (waitIfNeeded_loop _ process deps p1) as [[err p2] evs].
  simpl in IH. destruct IH as [IHr IHw].
  destruct (Condition dep); [|case_decide]; simpl; split; congruence.
Qed.

(** X12: when the calls of the handles leave the registry and [wg] as they
    are, a task leaves the registry without the name of its process, and
    otherwise as it found it, and [wg] lower by one, whether it has called
    [Run] or [WontRun]. *)
Theorem task_cleans_up process p :
  runningProcesses
    (task Process_WaitForCompletion Process_Run Process_WontRun process p).1.2
  = delete (GetName process) (runningProcesses p)
  ∧ wg (task Process_WaitForCompletion Process_Run Process_WontRun
          process p).1.2
    = (wg p - 1)%Z.
Proof.
  unfold task. rewrite bind_run.
  pose proof (waitIfNeeded_loop_keeps (procConf process)
                (DependsOn (procConf process)) p) as [Hr Hw].
  unfold waitIfNeeded.
  destruct (waitIfNeeded_loop _ (procConf process) _ p) as [[err p1] evs].
  simpl in Hr, Hw.
  destruct err as [e|]; simpl.
  - destruct (wontrun_keeps process p1) as [Hr' Hw'].
    rewrite Hr', Hw', Hr, Hw. split; [done|lia].
  - destruct (run_keeps process p1) as [Hr' Hw'].
    rewrite Hr', Hw', Hr, Hw. split; [done|lia].
Qed.

End TaskLeaves.

Lemma waitIfNeeded_stops_at_unmet_witness :
  let web := set_Name "web" web_needs_db in
  ∃ evs' dep d runningProc exitCode,
    (waitIfNeeded (exits_with 3) web db_running).2
    = evs' ++ [EvWaitForCompletion dep runningProc (Name web) exitCode]
    ∧ UnmetDependency "web" "db" 3
      = UnmetDependency (Name web) dep exitCode
    ∧ exitCode ≠ 0%Z
    ∧ (dep, d) ∈ DependsOn web
    ∧ Condition d = ProcessConditionCompletedSuccessfully
    ∧ Forall (fun ev => ∃ dep' h' c',
                ev = EvWaitForCompletion dep' h' (Name web) c') evs'.
Proof.
  apply (waitIfNeeded_stops_at_unmet (exits_with 3)
           (set_Name "web" web_needs_db) db_running).
  by vm_compute.
Defined.

Lemma task_cleans_up_witness :
  let web := handle_of "web" web_needs_db in
  runningProcesses (task (exits_with 3) no_effect no_effect web db_running).1.2
  = delete (GetName web) (runningProcesses db_running)
  ∧ wg (task (exits_with 3) no_effect no_effect web db_running).1.2
    = (wg db_running - 1)%Z.
Proof.
  apply (task_cleans_up (exits_with 3) no_effect no_effect); by intros.
Defined.

(** ** Start, stop and start again *)

Section ControlComposes.

Variable isStringDefined : string -> bool.
Variable Process_WaitForCompletion : Process -> string -> Project -> Z * Project.
Variable Process_Run : Process -> Project -> Project.
Variable Process_WontRun : Process -> Project -> Project.
Variable Process_stop : Process -> Project -> Project.

(** A [StartProcess] that returns no error has spawned one task and put
    its handle in the registry. *)
Lemma StartProcess_ok name p :
  (StartProcess isStringDefined name p).1.1 = None ->
  ∃ process,
    (StartProcess isStringDefined name p).2 = [EvGo process]
    ∧ GetName process = name
    ∧ runningProcesses (StartProcess isStringDefined name p).1.2
      = <[name := process]> (runningProcesses p).
Proof.
  unfold StartProcess. rewrite bind_run. unfold getRunningProcess.
  rewrite bind_run. unfold get_project at 1. rewrite ret_run. simpl.
  destruct (runningProcesses p !! name) as [running|]; [done|].
  rewrite bind_run. unfold get_project at 1. simpl.
  destruct (map_get (Processes p) name) as [proc|]; [|done].
  rewrite bind_run.
  destruct (runProcess_run isStringDefined (set_Name name proc) p)
    as (process & p' & -> & Hc & _ & _ & Hreg & _).
  rewrite ret_run. simpl. intros _. exists process.
  split_and!; [done| |done]. unfold GetName. by rewrite Hc.
Qed.

(** X13: a [StartProcess] that returned no error has put the handle of the
    task it spawned in the registry under the name; in every state of the
    project in which the registry still holds that handle under the name
    (the task has not ended and removed it), whatever else has changed, a
    further [StartProcess] of the name returns [AlreadyRunning], spawns
    nothing and leaves the project as it is. *)
Theorem StartProcess_twice name p :
  (StartProcess isStringDefined name p).1.1 = None ->
  ∃ process,
    (StartProcess isStringDefined name p).2 = [EvGo process]
    ∧ runningProcesses (StartProcess isStringDefined name p).1.2 !! name
      = Some process
    ∧ ∀ p', runningProcesses p' !! name = Some process ->
            StartProcess isStringDefined name p'
            = (Some (AlreadyRunning name), p', []).
Proof.
  intros (process & Hev & _ & Hreg)%StartProcess_ok.
  exists process. split_and!; [done|by rewrite Hreg, lookup_insert_eq|].
  intros p' Hp'. unfold StartProcess. rewrite bind_run.
  unfold getRunningProcess. rewrite bind_run. unfold get_project at 1.
  rewrite ret_run. simpl. by rewrite Hp'.
Qed.

(** X14: a [StartProcess] that returned no error has put the handle of the
    task it spawned in the registry under the name; in every state of the
    project in which the registry still holds that handle under the name
    (the task has not ended and removed it), whatever else has changed,
    [StopProcess] of the name calls [stop] on that handle, and on nothing
    else, and returns no error. *)
Theorem StartProcess_then_StopProcess name p :
  (StartProcess isStringDefined name p).1.1 = None ->
  ∃ process,
    (StartProcess isStringDefined name p).2 = [EvGo process]
    ∧ runningProcesses (StartProcess isStringDefined name p).1.2 !! name
      = Some process
    ∧ ∀ p', runningProcesses p' !! name = Some process ->
            StopProcess Process_stop name p'
            = (None, Process_stop process p', [EvStop process]).
Proof.
  intros (process & Hev & _ & Hreg)%StartProcess_ok.
  exists process. split_and!; [done|by rewrite Hreg, lookup_insert_eq|].
  intros p' Hp'. unfold StopProcess. rewrite bind_run.
  unfold getRunningProcess. rewrite bind_run. unfold get_project at 1.
  rewrite ret_run. simpl. by rewrite Hp'.
Qed.

(** X15: once the task of a process has ended, [StartProcess] of its name,
    if it is still declared, spawns a task again; the new handle has the
    attempt counter 1 again. *)
Theorem StartProcess_after_task process p proc :
  map_get
    (Processes
       (task Process_WaitForCompletion Process_Run Process_WontRun
          process p).1.2)
    (GetName process) = Some proc ->
  ∃ process' p',
    StartProcess isStringDefined (GetName process)
      (task Process_WaitForCompletion Process_Run Process_WontRun
         process p).1.2
    = (None, p', [EvGo process'])
    ∧ procConf process' = set_Name (GetName process) proc
    ∧ attempt process' = 1%Z.
Proof.
  pose proof (task_removes Process_WaitForCompletion Process_Run
                Process_WontRun process p) as Hgone.
  generalize dependent
    (task Process_WaitForCompletion Process_Run Process_WontRun process p).1.2.
  intros q Hgone Hdecl. unfold StartProcess. rewrite bind_run.
  unfold getRunningProcess. rewrite bind_run. unfold get_project at 1.
  rewrite ret_run. simpl. rewrite Hgone.
  rewrite bind_run. unfold get_project at 1. simpl. rewrite Hdecl.
  rewrite bind_run.
  destruct (runProcess_run isStringDefined (set_Name (GetName process) proc) q)
    as (process' & p' & -> & Hc & Ha & _).
  rewrite ret_run. simpl. by exists process', p'.
Qed.

(** X16: the task of a process whose [DependsOn] begins, as [range] yields
    it, with the process itself begins by waiting for the completion of
    its own handle, which [runProcess] has put in the registry before it
    spawns the task. *)
Theorem task_waits_for_itself proc dep deps p :
  DependsOn proc = (Name proc, dep) :: deps ->
  ∃ process p1 exitCode evs,
    runProcess isStringDefined proc p = (tt, p1, [EvGo process])
    ∧ procConf process = proc
    ∧ (task Process_WaitForCompletion Process_Run Process_WontRun
         process p1).2
      = EvWaitForCompletion (Name proc) process (Name proc) exitCode :: evs.
Proof.
  intros Hdeps.
  destruct (runProcess_run isStringDefined proc p)
    as (process & p1 & HrunP & Hc & _ & _ & Hreg & _).
  assert (runningProcesses p1 !! Name proc = Some process) as Hself.
  { by rewrite Hreg, lookup_insert_eq. }
  assert (∃ exitCode evs,
    (task Process_WaitForCompletion Process_Run Process_WontRun process p1).2
    = EvWaitForCompletion (Name proc) process (Name proc) exitCode :: evs)
    as (exitCode & evs & Ht).
  { rewrite task_events. unfold waitIfNeeded.
    rewrite Hc, Hdeps, waitIfNeeded_loop_cons, Hself.
    destruct (Process_WaitForCompletion process (Name proc) p1)
      as [exitCode p2].
    exists exitCode.
    destruct (Condition dep).
    - destruct (waitIfNeeded_loop _ proc deps p2) as [[err p3] evs].
      by eexists.
    - case_decide.
      + by eexists.
      + destruct (waitIfNeeded_loop _ proc deps p2) as [[err p3] evs].
        by eexists. }
  by exists process, p1, exitCode, evs.
Qed.

End ControlComposes.

Lemma StartProcess_twice_witness :
  ∃ process,
    (StartProcess (fun _ => false) "web" db_running).2 = [EvGo process]
    ∧ runningProcesses (StartProcess (fun _ => false) "web" db_running).1.2
        !! "web"
      = Some process
    ∧ ∀ p', runningProcesses p' !! "web" = Some process ->
            StartProcess (fun _ => false) "web" p'
            = (Some (AlreadyRunning "web"), p', []).
Proof. apply StartProcess_twice. by vm_compute. Defined.

Lemma StartProcess_then_StopProcess_witness :
  ∃ process,
    (StartProcess (fun _ => false) "web" db_running).2 = [EvGo process]
    ∧ runningProcesses (StartProcess (fun _ => false) "web" db_running).1.2
        !! "web"
      = Some process
    ∧ ∀ p', runningProcesses p' !! "web" = Some process ->
            StopProcess no_effect "web" p'
            = (None, no_effect process p', [EvStop process]).
Proof.
  apply (StartProcess_then_StopProcess (fun _ => false) no_effect).
  by vm_compute.
Defined.

Lemma StartProcess_after_task_witness :
  let db := handle_of "db" (process_decl false []) in
  ∃ process' p',
    StartProcess (fun _ => false) (GetName db)
      (task (exits_with 0) no_effect no_effect db db_running).1.2
    = (None, p', [EvGo process'])
    ∧ procConf process' = set_Name (GetName db) (process_decl false [])
    ∧ attempt process' = 1%Z.
Proof.
  apply (StartProcess_after_task (fun _ => false) (exits_with 0) no_effect
           no_effect (handle_of "db" (process_decl false [])) db_running).
  by vm_compute.
Defined.

Lemma task_waits_for_itself_witness :
  let loop :=
    {| Name := "loop"; Disabled := false; LogLocation := "";
       DependsOn := [("loop", {| Condition := ProcessConditionCompleted |})] |} in
  ∃ process p1 exitCode evs,
    runProcess (fun _ => false) loop (loaded [("loop", loop)])
    = (tt, p1, [EvGo process])
    ∧ procConf process = loop
    ∧ (task (exits_with 0) no_effect no_effect process p1).2
      = EvWaitForCompletion (Name loop) process (Name loop) exitCode :: evs.
Proof.
  apply (task_waits_for_itself (fun _ => false) (exits_with 0) no_effect
           no_effect _ {| Condition := ProcessConditionCompleted |} []).
  reflexivity.
Defined.

(** ** The files found *)

Section FilesFound.

Variable Join : string -> string -> string.
Variable Stat : string -> bool.

Lemma findFiles_elem names pwd f :
  f ∈ findFiles Join Stat names pwd
  <-> ∃ n, n ∈ names ∧ f = Join pwd n ∧ Stat f = true.
Proof.
  rewrite findFiles_filter, list_elem_of_filter, list_elem_of_fmap. split.
  - intros [Hs (n & -> & Hn)]. eauto.
  - intros (n & Hn & -> & Hs). eauto.
Qed.

(** X17: [findFiles] returns the paths of the given names that exist, and
    no other path, in the order of the names, a name given twice twice; so
    it returns nothing for no names, and never more paths than names. *)
Theorem findFiles_existing names pwd :
  (∀ f, f ∈ findFiles Join Stat names pwd
        <-> ∃ n, n ∈ names ∧ f = Join pwd n ∧ Stat f = true)
  ∧ findFiles Join Stat names pwd `sublist_of` (Join pwd <$> names)
  ∧ length (findFiles Join Stat names pwd) ≤ length names
  ∧ (∀ names', findFiles Join Stat (names ++ names') pwd
               = findFiles Join Stat names pwd
                 ++ findFiles Join Stat names' pwd).
Proof.
  split_and!.
  - intros f. apply findFiles_elem.
  - rewrite findFiles_filter. apply sublist_filter.
  - rewrite findFiles_filter, <- (length_fmap (Join pwd) names).
    apply length_filter.
  - intros names'. rewrite !findFiles_filter. by rewrite fmap_app, filter_app.
Qed.

(** X18: the path [AutoDiscoverComposeFile] returns without an error
    exists and is the path of one of the four default names; it returns
    an error exactly when none of the four exists, and then logs nothing;
    it logs its two warnings exactly when two or more of them exist. *)
Theorem AutoDiscoverComposeFile_sound pwd :
  ((AutoDiscoverComposeFile Join Stat pwd).1.2 = None ->
   Stat (AutoDiscoverComposeFile Join Stat pwd).1.1 = true
   ∧ ∃ n, n ∈ DefaultFileNames
          ∧ (AutoDiscoverComposeFile Join Stat pwd).1.1 = Join pwd n)
  ∧ ((AutoDiscoverComposeFile Join Stat pwd).1.2 = Some (NoConfigFiles pwd)
     <-> ∀ n, n ∈ DefaultFileNames -> Stat (Join pwd n) = false)
  ∧ ((AutoDiscoverComposeFile Join Stat pwd).1.2 = None
     ∨ (AutoDiscoverComposeFile Join Stat pwd)
       = ("", Some (NoConfigFiles pwd), []))
  ∧ (length (AutoDiscoverComposeFile Join Stat pwd).2 = 2
     <-> 2 ≤ length (filter (fun n => Stat (Join pwd n) = true)
                            DefaultFileNames))
  ∧ ((AutoDiscoverComposeFile Join Stat pwd).2 = []
     <-> length (filter (fun n => Stat (Join pwd n) = true)
                        DefaultFileNames) ≤ 1).
Proof.
  assert (length (filter (fun n => Stat (Join pwd n) = true) DefaultFileNames)
          = length (findFiles Join Stat DefaultFileNames pwd)) as Hlen.
  { rewrite findFiles_filter. generalize DefaultFileNames.
    induction l as [|n l IH]; [done|].
    rewrite fmap_cons, !filter_cons. simpl.
    destruct (Stat (Join pwd n)); simpl; by rewrite ?IH. }
  rewrite Hlen. clear Hlen.
  pose proof (findFiles_elem DefaultFileNames pwd) as Hmem.
  unfold AutoDiscoverComposeFile.
  destruct (findFiles Join Stat DefaultFileNames pwd) as [|winner others].
  - simpl. split_and!; try done.
    + split; [intros _|done]. intros n Hn.
      destruct (Stat (Join pwd n)) eqn:Hs; [|done].
      assert (Join pwd n ∈ @nil string) as Hin%elem_of_nil; [|done].
      apply Hmem. eauto.
    + by right.
    + split; [done|lia].
    + split; [lia|done].
  - destruct (proj1 (Hmem winner)) as (n & Hn & Hw & Hs); [by left|].
    simpl. split_and!.
    + intros _. split; [done|]. eauto.
    + split; [done|]. intros Hnone. rewrite Hw, (Hnone n Hn) in Hs. done.
    + by left.
    + case_decide; simpl; split; try done; lia.
    + case_decide; simpl; split; try done; lia.
Qed.

End FilesFound.

(** ** The registry *)

(** X19: the three operations on the running registry fit together: a
    handle added is the one found under the name of its process, in place
    of an older one; a name removed is not found; neither touches another
    name; and removing the handle just added gives back a registry that
    did not hold the name.  None of them calls a handle or changes
    anything else of the project. *)
Theorem registry_round_trip process p :
  let name := GetName process in
  let p_added := (addRunningProcess process p).1.2 in
  let p_removed := (removeRunningProcess name p).1.2 in
  getRunningProcess name p_added = (Some process, p_added, [])
  ∧ getRunningProcess name p_removed = (None, p_removed, [])
  ∧ (∀ other, other ≠ name ->
       (getRunningProcess other p_added).1.1
       = (getRunningProcess other p).1.1
       ∧ (getRunningProcess other p_removed).1.1
         = (getRunningProcess other p).1.1)
  ∧ ((getRunningProcess name p).1.1 = None ->
     runningProcesses (removeRunningProcess name p_added).1.2
     = runningProcesses p)
  ∧ (addRunningProcess process p).2 = []
  ∧ (removeRunningProcess name p).2 = []
  ∧ wg p_added = wg p ∧ wg p_removed = wg p
  ∧ Processes p_added = Processes p ∧ Processes p_removed = Processes p.
Proof.
  simpl. unfold getRunningProcess. rewrite !bind_run. simpl.
  rewrite lookup_insert_eq, lookup_delete_eq. split_and!; try done.
  - intros other Hne. by rewrite lookup_insert_ne, lookup_delete_ne.
  - intros Hnone. rewrite delete_insert_eq. by apply delete_id.
Qed.

(** ** The order of [Run] *)

Section RunOrder.

Variable isStringDefined : string -> bool.

(** X20: [Run] spawns the tasks in the order that
    [GetDependenciesOrderNames] gives for the same project, and for the
    processes it names, also when the walk ends with an error. *)
Theorem Run_in_dependency_order p :
  map_wf (Processes p) ->
  ∃ p' (handles : list Process) err,
    Run isStringDefined p = Some (p', EvGo <$> handles)
    ∧ GetDependenciesOrderNames p = Some (GetName <$> handles, err).
Proof.
  intros Hwf.
  destruct (Run_launch isStringDefined p Hwf)
    as (err & dn & runOrder & p2 & p' & Hw & HRun & _).
  exists p', (handle_for isStringDefined p2 <$> runOrder), err.
  split; [done|]. unfold GetDependenciesOrderNames.
  rewrite (WithProcesses_names _ _ _ _ _ Hw).
  by rewrite <- list_fmap_compose.
Qed.

End RunOrder.

Lemma Run_in_dependency_order_witness :
  ∃ p' (handles : list Process) err,
    Run (fun _ => false) web_stack = Some (p', EvGo <$> handles)
    ∧ GetDependenciesOrderNames web_stack = Some (GetName <$> handles, err).
Proof. apply Run_in_dependency_order. exact web_stack_wf. Defined.
